(** * advanced-vector: [RawMemory<T>] and [Vector<T>] (vector.h)

    A shallow embedding of the two class templates of [vector.h] and the
    properties of the container that follow from the code.

    - The element type [T] is a parameter, described by the class
      [Element]: its value-initialised value, the state a move leaves in
      its source, the two traits [CopyOrMoveElements] tests, and which of
      its operations throw.
    - Raw storage is a memory of blocks; a slot of a block is [None] while
      it is raw and [Some x] while it holds a live object of value [x].
    - [Vector] objects live in an object store and are named by their
      address, so that [this != &rhs] is a comparison of addresses.
    - A method is a function from the program state to an [outcome]: a
      normal return, an exception in flight, or undefined behaviour.
    - Every element operation, allocation and deallocation is appended to a
      trace, which plays the role of a probe type counting operations.

    [size_t], [int] and pointer offsets are taken at their mathematical
    values (type [nat]): both widths are implementation-defined, and the
    vectors considered are those whose element count fits both types. A
    subtraction that would go below zero is undefined behaviour here, as
    every use of the wrapped value in the source is an access outside the
    block. The assertions of [operator+] and [operator[]] belong to debug
    builds and are not part of the model: an access outside a block, to a
    raw slot as an object, or to a live slot as raw storage, is undefined
    behaviour wherever it occurs. *)

From stdpp Require Import base list.

Set Default Proof Using "Type".

(** ** The element type *)

(** Operations of the element type and of the allocator. *)
Inductive op (T : Type) : Type :=
  | OpNew (n : nat)           (* operator new(n * sizeof(T)) *)
  | OpDelete (b : nat)        (* operator delete(buf), buf being block b *)
  | Construct (x : T)         (* T(args...), of value x *)
  | ValueInit                 (* T() *)
  | CopyCtor (x : T)          (* T(const T&) from a source of value x *)
  | MoveCtor (x : T)          (* T(T&&) from a source of value x *)
  | CopyAssign (x : T)        (* operator=(const T&), source of value x *)
  | MoveAssign (x : T)        (* operator=(T&&), source of value x *)
  | Destroy (x : T).          (* ~T() on an object of value x *)
Arguments OpNew {T} n.
Arguments OpDelete {T} b.
Arguments Construct {T} x.
Arguments ValueInit {T}.
Arguments CopyCtor {T} x.
Arguments MoveCtor {T} x.
Arguments CopyAssign {T} x.
Arguments MoveAssign {T} x.
Arguments Destroy {T} x.

(** What the probe sees: an operation that completed, or one that threw. *)
Inductive event (T : Type) : Type :=
  | Did (o : op T)
  | Threw (o : op T).
Arguments Did {T} o.
Arguments Threw {T} o.

(** The element type. Values of [T] are the states of its objects; a copy
    has the value of its source, and an operation that throws leaves its
    operands as they were. *)
Class Element (T : Type) : Type := {
  (** the value of [T()] *)
  value_init : T;
  (** the value left in the source of a move *)
  moved_from : T → T;
  (** [std::is_nothrow_move_constructible_v<T>] *)
  is_nothrow_move_constructible : bool;
  (** [std::is_copy_constructible_v<T>] *)
  is_copy_constructible : bool;
  (** whether the operation throws when attempted after this history *)
  throws : list (event T) → op T → bool;
}.

(** ** Program states and outcomes *)

Abbreviation block := nat (only parsing).
Abbreviation obj := nat (only parsing).

(** [T*]: [None] is [nullptr]; [Some (b, i)] is slot [i] of block [b]. *)
Abbreviation ptr := (option (block * nat)).

(** [RawMemory<T>] *)
Record RawMemory : Type := mkRawMemory {
  buffer_ : ptr;
  capacity_ : nat;
}.

(** [Vector<T>] *)
Record Vector : Type := mkVector {
  data_ : RawMemory;
  size_ : nat;
}.

Record state (T : Type) : Type := mkState {
  (** the blocks handed out by [operator new]; [None] once deleted *)
  heap : list (option (list (option T)));
  (** the [Vector] objects, by address; [None] once destroyed *)
  objs : list (option Vector);
  trace : list (event T);
}.
Arguments mkState {T} heap objs trace.
Arguments heap {T} s.
Arguments objs {T} s.
Arguments trace {T} s.

Inductive outcome (S A : Type) : Type :=
  | Ret (a : A) (s : S)       (* normal return *)
  | Throw (s : S)             (* an exception propagates *)
  | Undef.                    (* undefined behaviour *)
Arguments Ret {S A} a s.
Arguments Throw {S A} s.
Arguments Undef {S A}.

Declare Scope vec_scope.
Delimit Scope vec_scope with vec.

Section Monad.
Context {T : Type}.

Definition M (A : Type) : Type := state T → outcome (state T) A.

Definition ret {A} (a : A) : M A := λ s, Ret a s.

Definition bind {A B} (m : M A) (f : A → M B) : M B :=
  λ s, match m s with
       | Ret a s' => f a s'
       | Throw s' => Throw s'
       | Undef => Undef
       end.

Definition undef {A} : M A := λ _, Undef.

(** [try { m } catch (...) { h; throw; }], and the unwinding of a scope
    whose local objects are destroyed by [h]. *)
Definition on_throw {A} (m : M A) (h : M unit) : M A :=
  λ s, match m s with
       | Throw s' =>
           match h s' with
           | Ret _ s'' => Throw s''
           | Throw s'' => Throw s''
           | Undef => Undef
           end
       | r => r
       end.

End Monad.
Arguments M T A : clear implicits.

Notation "x <- m ;; k" := (bind m (λ x, k))
  (at level 100, m at next level, right associativity) : vec_scope.
Notation "m ;; k" := (bind m (λ _, k))
  (at level 100, right associativity) : vec_scope.

Local Open Scope vec_scope.

Section Model.
Context {T : Type} `{!Element T}.
Local Abbreviation M := (M T).

Definition log (e : event T) : M unit :=
  λ s, Ret () (mkState (heap s) (objs s) (trace s ++ [e])).

(** A move constructor declared [noexcept] cannot throw. *)
Definition may_throw (tr : list (event T)) (o : op T) : bool :=
  match o with
  | MoveCtor _ => negb is_nothrow_move_constructible && throws tr o
  | _ => throws tr o
  end.

(** An operation that can fail. *)
Definition attempt (o : op T) : M unit :=
  λ s, if may_throw (trace s) o
       then Throw (mkState (heap s) (objs s) (trace s ++ [Threw o]))
       else Ret () (mkState (heap s) (objs s) (trace s ++ [Did o])).

(** *** Pointers *)

(** [p + k]. [nullptr + 0] is [nullptr]; any other sum with [nullptr] is
    left null and faults when used. *)
Definition ptr_add (p : ptr) (k : nat) : ptr :=
  match p with
  | Some (b, i) => Some (b, i + k)
  | None => None
  end.

(** [p - k] *)
Definition ptr_sub (p : ptr) (k : nat) : M ptr :=
  match p with
  | Some (b, i) => if decide (k ≤ i) then ret (Some (b, i - k)) else undef
  | None => if decide (k = 0) then ret None else undef
  end.

(** [p - q], for [q] not after [p] in the same block. *)
Definition ptr_diff (p q : ptr) : M nat :=
  match p, q with
  | None, None => ret 0
  | Some (b, i), Some (c, j) =>
      if decide (b = c ∧ j ≤ i) then ret (i - j) else undef
  | _, _ => undef
  end.

(** [a - b] on [size_t] *)
Definition size_sub (a b : nat) : M nat :=
  if decide (b ≤ a) then ret (a - b) else undef.

(** *** Slots *)

Definition get_slot (p : ptr) : M (option T) :=
  λ s, match p with
       | Some (b, i) =>
           match heap s !! b with
           | Some (Some blk) =>
               match blk !! i with
               | Some c => Ret c s
               | None => Undef
               end
           | _ => Undef
           end
       | None => Undef
       end.

Definition set_slot (p : ptr) (c : option T) : M unit :=
  λ s, match p with
       | Some (b, i) =>
           match heap s !! b with
           | Some (Some blk) =>
               if decide (i < length blk)
               then Ret () (mkState (<[b := Some (<[i := c]> blk)]> (heap s))
                                    (objs s) (trace s))
               else Undef
           | _ => Undef
           end
       | None => Undef
       end.

(** The value of the live object at [p]. *)
Definition read (p : ptr) : M T :=
  c <- get_slot p ;;
  match c with
  | Some x => ret x
  | None => undef
  end.

(** [p] is raw storage in which an object can be constructed. *)
Definition raw (p : ptr) : M unit :=
  c <- get_slot p ;;
  match c with
  | Some _ => undef
  | None => ret ()
  end.

(** *** Element operations on slots *)

(** [new (p) T(args...)], the constructed object having value [x]. *)
Definition construct_at (p : ptr) (o : op T) (x : T) : M unit :=
  raw p ;; attempt o ;; set_slot p (Some x).

(** [new (p) T()] *)
Definition value_construct_at (p : ptr) : M unit :=
  construct_at p ValueInit value_init.

(** [new (p) T(x)] with [x] the object at [src] *)
Definition copy_construct_at (p src : ptr) : M unit :=
  x <- read src ;; construct_at p (CopyCtor x) x.

(** [new (p) T(std::move(x))] with [x] the object at [src] *)
Definition move_construct_at (p src : ptr) : M unit :=
  x <- read src ;;
  raw p ;; attempt (MoveCtor x) ;;
  set_slot src (Some (moved_from x)) ;;
  set_slot p (Some x).

(** copy assignment of the object at [src] to the object at [p] *)
Definition copy_assign (p src : ptr) : M unit :=
  x <- read src ;; read p ;; attempt (CopyAssign x) ;; set_slot p (Some x).

(** move assignment of the object at [src] to the object at [p] *)
Definition move_assign (p src : ptr) : M unit :=
  x <- read src ;; read p ;; attempt (MoveAssign x) ;;
  set_slot src (Some (moved_from x)) ;;
  set_slot p (Some x).

(** move assignment of a local object of value [x] to the object at [p] *)
Definition move_assign_from (p : ptr) (x : T) : M unit :=
  read p ;; attempt (MoveAssign x) ;; set_slot p (Some x).

(** [std::destroy_at(p)] *)
Definition destroy_at (p : ptr) : M unit :=
  x <- read p ;; log (Did (Destroy x)) ;; set_slot p None.

(** *** Algorithms of <memory> and <algorithm> *)

(** [std::destroy_n(first, n)] *)
Fixpoint destroy_n (first : ptr) (n : nat) : M unit :=
  match n with
  | 0 => ret ()
  | S n' => destroy_at first ;; destroy_n (ptr_add first 1) n'
  end.

(** [std::uninitialized_value_construct_n(first, n)]: when the
    construction of element [i] throws, the [i] elements already
    constructed are destroyed and the exception is rethrown. *)
Fixpoint uninitialized_value_construct_from (first : ptr) (i n : nat) : M unit :=
  match n with
  | 0 => ret ()
  | S n' =>
      on_throw (value_construct_at (ptr_add first i)) (destroy_n first i) ;;
      uninitialized_value_construct_from first (S i) n'
  end.

Definition uninitialized_value_construct_n (first : ptr) (n : nat) : M unit :=
  uninitialized_value_construct_from first 0 n.

(** [std::uninitialized_copy_n(first, n, d_first)] *)
Fixpoint uninitialized_copy_from (first d_first : ptr) (i n : nat) : M unit :=
  match n with
  | 0 => ret ()
  | S n' =>
      on_throw (copy_construct_at (ptr_add d_first i) (ptr_add first i))
               (destroy_n d_first i) ;;
      uninitialized_copy_from first d_first (S i) n'
  end.

Definition uninitialized_copy_n (first : ptr) (n : nat) (d_first : ptr) : M unit :=
  uninitialized_copy_from first d_first 0 n.

(** [std::uninitialized_move_n(first, n, d_first)] *)
Fixpoint uninitialized_move_from (first d_first : ptr) (i n : nat) : M unit :=
  match n with
  | 0 => ret ()
  | S n' =>
      on_throw (move_construct_at (ptr_add d_first i) (ptr_add first i))
               (destroy_n d_first i) ;;
      uninitialized_move_from first d_first (S i) n'
  end.

Definition uninitialized_move_n (first : ptr) (n : nat) (d_first : ptr) : M unit :=
  uninitialized_move_from first d_first 0 n.

(** [std::copy(first, last, d_first)], with [n = last - first] *)
Fixpoint copy_loop (first d_first : ptr) (n : nat) : M unit :=
  match n with
  | 0 => ret ()
  | S n' =>
      copy_assign d_first first ;;
      copy_loop (ptr_add first 1) (ptr_add d_first 1) n'
  end.

Definition std_copy (first last d_first : ptr) : M unit :=
  n <- ptr_diff last first ;; copy_loop first d_first n.

(** [std::move(first, last, d_first)] *)
Fixpoint move_loop (first d_first : ptr) (n : nat) : M unit :=
  match n with
  | 0 => ret ()
  | S n' =>
      move_assign d_first first ;;
      move_loop (ptr_add first 1) (ptr_add d_first 1) n'
  end.

Definition std_move (first last d_first : ptr) : M unit :=
  n <- ptr_diff last first ;; move_loop first d_first n.

(** [std::move_backward(first, last, d_last)]:
    each step decrements [last] and [d_last] and move-assigns the object
    at [last] to the one at [d_last]. *)
Fixpoint move_backward_loop (last d_last : ptr) (n : nat) : M unit :=
  match n with
  | 0 => ret ()
  | S n' =>
      last' <- ptr_sub last 1 ;;
      d_last' <- ptr_sub d_last 1 ;;
      move_assign d_last' last' ;;
      move_backward_loop last' d_last' n'
  end.

Definition std_move_backward (first last d_last : ptr) : M unit :=
  n <- ptr_diff last first ;; move_backward_loop last d_last n.

End Model.
Arguments may_throw {T _} tr o : simpl never.

(** ** RawMemory *)

Module RawMemory.
Section Methods.
Context {T : Type} `{!Element T}.
Local Abbreviation M := (M T).

(** [static T* Allocate(size_t n)]: a new block of [n] raw slots, at an
    address no block had before; [nullptr] for [n = 0]. *)
Definition Allocate (n : nat) : M ptr :=
  if decide (n = 0) then ret None
  else
    attempt (OpNew n) ;;
    λ s, Ret (Some (length (heap s), 0))
             (mkState (heap s ++ [Some (replicate n None)]) (objs s) (trace s)).

(** [static void Deallocate(T* buf) noexcept]: no destructor is run on
    the slots of the block. *)
Definition Deallocate (buf : ptr) : M unit :=
  match buf with
  | None => ret ()
  | Some (b, i) =>
      λ s, match heap s !! b with
           | Some (Some _) =>
               if decide (i = 0)
               then Ret () (mkState (<[b := None]> (heap s)) (objs s)
                                    (trace s ++ [Did (OpDelete b)]))
               else Undef
           | _ => Undef
           end
  end.

(** [RawMemory() = default] *)
Definition default : RawMemory := mkRawMemory None 0.

(** [explicit RawMemory(size_t capacity)] *)
Definition new (capacity : nat) : M RawMemory :=
  buf <- Allocate capacity ;; ret (mkRawMemory buf capacity).

(** [~RawMemory()] *)
Definition delete (r : RawMemory) : M unit := Deallocate (buffer_ r).

(** [T* operator+(size_t offset) noexcept] *)
Definition plus (r : RawMemory) (offset : nat) : ptr := ptr_add (buffer_ r) offset.

(** [T& operator[](size_t index) noexcept], the reference as an address *)
Definition index (r : RawMemory) (i : nat) : ptr := ptr_add (buffer_ r) i.

(** [void Swap(RawMemory& other) noexcept], on the two objects *)
Definition Swap (r other : RawMemory) : RawMemory * RawMemory :=
  (mkRawMemory (buffer_ other) (capacity_ other),
   mkRawMemory (buffer_ r) (capacity_ r)).

Definition GetAddress (r : RawMemory) : ptr := buffer_ r.

Definition Capacity (r : RawMemory) : nat := capacity_ r.

(** [RawMemory(RawMemory&& other) noexcept]: the new object and [other]
    as the constructor leaves them *)
Definition move_ctor (other : RawMemory) : RawMemory * RawMemory :=
  (mkRawMemory (buffer_ other) (capacity_ other), mkRawMemory None 0).

(** [RawMemory& operator=(RawMemory&& rhs) noexcept], for the objects at
    the addresses [this] and [rhs] of [mem]; the result is the objects
    afterwards *)
Definition move_assign (mem : list RawMemory) (this rhs : obj) : M (list RawMemory) :=
  match mem !! this, mem !! rhs with
  | Some r, Some o =>
      if decide (this ≠ rhs) then
        Deallocate (buffer_ r) ;;
        let mem := <[this := mkRawMemory (buffer_ o) (capacity_ o)]> mem in
        ret (<[rhs := mkRawMemory None 0]> mem)
      else ret mem
  | _, _ => undef
  end.

End Methods.
End RawMemory.

(** ** Vector *)

(** The arguments of [Emplace]: what the new element is constructed from,
    and the value [x] the constructed element has. Both branches of
    [Emplace] construct from the arguments before they modify the buffer,
    so an argument that refers to an element of the vector is read at its
    value before the call; an rvalue argument is taken to be an object
    outside the buffer. List- and direct-initialisation from the arguments
    ([T{args...}] when reallocating, [T(args...)] otherwise) are taken to
    construct the same value. *)
Inductive arg (T : Type) : Type :=
  | Args (x : T)      (* Emplace(pos, args...) *)
  | Lvalue (x : T)    (* Insert(pos, const T& value), PushBack(value) *)
  | Rvalue (x : T).   (* Insert(pos, T&& value), PushBack(std::move(value)) *)
Arguments Args {T} x.
Arguments Lvalue {T} x.
Arguments Rvalue {T} x.

Definition arg_value {T} (a : arg T) : T :=
  match a with Args x | Lvalue x | Rvalue x => x end.

Definition arg_op {T} (a : arg T) : op T :=
  match a with
  | Args x => Construct x
  | Lvalue x => CopyCtor x
  | Rvalue x => MoveCtor x
  end.

Module Vector.
Section Methods.
Context {T : Type} `{!Element T}.
Local Abbreviation M := (M T).

(** *** The object store *)

Definition load (this : obj) : M Vector :=
  λ s, match objs s !! this with
       | Some (Some v) => Ret v s
       | _ => Undef
       end.

Definition store (this : obj) (v : Vector) : M unit :=
  λ s, match objs s !! this with
       | Some (Some _) =>
           Ret () (mkState (heap s) (<[this := Some v]> (objs s)) (trace s))
       | _ => Undef
       end.

(** An object comes to life at an address no object had before. *)
Definition new_object (v : Vector) : M obj :=
  λ s, Ret (length (objs s)) (mkState (heap s) (objs s ++ [Some v]) (trace s)).

Definition delete_object (this : obj) : M unit :=
  λ s, match objs s !! this with
       | Some (Some _) =>
           Ret () (mkState (heap s) (<[this := None]> (objs s)) (trace s))
       | _ => Undef
       end.

(** *** Iterators and accessors *)

Definition begin (this : obj) : M ptr :=
  v <- load this ;; ret (RawMemory.GetAddress (data_ v)).

Definition end_ (this : obj) : M ptr :=
  v <- load this ;; ret (ptr_add (RawMemory.GetAddress (data_ v)) (size_ v)).

Definition Size (this : obj) : M nat :=
  v <- load this ;; ret (size_ v).

Definition Capacity (this : obj) : M nat :=
  v <- load this ;; ret (RawMemory.Capacity (data_ v)).

(** [T& operator[](size_t index) noexcept], the reference as an address *)
Definition index (this : obj) (i : nat) : M ptr :=
  v <- load this ;; ret (RawMemory.index (data_ v) i).

(** *** Relocation *)

Definition CopyOrMoveElements (old_memory new_memory : ptr) (size : nat) : M unit :=
  (if is_nothrow_move_constructible || negb is_copy_constructible
   then uninitialized_move_n old_memory size new_memory
   else uninitialized_copy_n old_memory size new_memory) ;;
  destroy_n old_memory size.

(** *** Swap, constructors, destructor *)

Definition Swap (this other : obj) : M unit :=
  (* data_.Swap(other.data_) *)
  a <- load this ;; b <- load other ;;
  let '(da, db) := RawMemory.Swap (data_ a) (data_ b) in
  store this (mkVector da (size_ a)) ;;
  b <- load other ;;
  store other (mkVector db (size_ b)) ;;
  (* std::swap(size_, other.size_) *)
  a <- load this ;; b <- load other ;;
  store this (mkVector (data_ a) (size_ b)) ;;
  b <- load other ;;
  store other (mkVector (data_ b) (size_ a)).



(** [Vector(const Vector& other)] *)
Definition copy_ctor (other : obj) : M obj :=
  o <- load other ;;
  data <- RawMemory.new (size_ o) ;;
  on_throw (uninitialized_copy_n (RawMemory.GetAddress (data_ o)) (size_ o)
                                 (RawMemory.GetAddress data))
           (RawMemory.delete data) ;;
  new_object (mkVector data (size_ o)).

(** [Vector(Vector&& other) noexcept] *)
Definition move_ctor (other : obj) : M obj :=
  this <- new_object (mkVector RawMemory.default 0) ;;
  Swap this other ;;
  ret this.

(** [~Vector()], followed by the destructor of the member [data_] *)
Definition dtor (this : obj) : M unit :=
  v <- load this ;;
  destroy_n (RawMemory.GetAddress (data_ v)) (size_ v) ;;
  RawMemory.delete (data_ v) ;;
  delete_object this.

(** *** Capacity *)

Definition Reserve (this : obj) (new_capacity : nat) : M unit :=
  v <- load this ;;
  if decide (new_capacity ≤ RawMemory.Capacity (data_ v)) then ret ()
  else
    new_data <- RawMemory.new new_capacity ;;
    b <- begin this ;;
    on_throw (CopyOrMoveElements b (RawMemory.GetAddress new_data) (size_ v))
             (RawMemory.delete new_data) ;;
    let '(d, new_data) := RawMemory.Swap (data_ v) new_data in
    store this (mkVector d (size_ v)) ;;
    RawMemory.delete new_data.

Definition Resize (this : obj) (new_size : nat) : M unit :=
  v <- load this ;;
  (if decide (new_size < size_ v) then
     destroy_n (ptr_add (RawMemory.GetAddress (data_ v)) new_size)
               (size_ v - new_size)
   else
     Reserve this new_size ;;
     v <- load this ;;
     uninitialized_value_construct_n
       (ptr_add (RawMemory.GetAddress (data_ v)) (size_ v))
       (new_size - size_ v)) ;;
  v <- load this ;;
  store this (mkVector (data_ v) new_size).

(** *** Modifiers *)

Definition PopBack (this : obj) : M unit :=
  v <- load this ;;
  if decide (0 < size_ v) then
    store this (mkVector (data_ v) (size_ v - 1)) ;;
    destroy_at (ptr_add (RawMemory.GetAddress (data_ v)) (size_ v - 1))
  else ret ().

Definition Emplace (this : obj) (pos : ptr) (a : arg T) : M ptr :=
  b <- begin this ;;
  new_pos <- ptr_diff pos b ;;
  v <- load this ;;
  (if decide (RawMemory.Capacity (data_ v) ≤ size_ v) then
     let new_capacity := if decide (size_ v = 0) then 1 else size_ v * 2 in
     new_data <- RawMemory.new new_capacity ;;
     on_throw
       (construct_at (ptr_add (RawMemory.GetAddress new_data) new_pos)
                     (arg_op a) (arg_value a) ;;
        on_throw
          (CopyOrMoveElements (RawMemory.GetAddress (data_ v))
                              (RawMemory.GetAddress new_data) new_pos ;;
           n <- size_sub (size_ v) new_pos ;;
           CopyOrMoveElements
             (ptr_add (RawMemory.GetAddress (data_ v)) new_pos)
             (ptr_add (ptr_add (RawMemory.GetAddress new_data) new_pos) 1) n)
          (destroy_at (ptr_add (RawMemory.GetAddress new_data) new_pos)))
       (RawMemory.delete new_data) ;;
     let '(d, new_data) := RawMemory.Swap (data_ v) new_data in
     store this (mkVector d (size_ v)) ;;
     RawMemory.delete new_data
   else
     e <- end_ this ;;
     if decide (pos ≠ e) then
       (* T new_s(args...), destroyed when the block is left *)
       attempt (arg_op a) ;;
       let new_s := arg_value a in
       on_throw
         (last <- size_sub (size_ v) 1 ;;
          move_construct_at e (RawMemory.index (data_ v) last) ;;
          e1 <- ptr_sub e 1 ;;
          std_move_backward (ptr_add b new_pos) e1 e ;;
          move_assign_from (ptr_add b new_pos) new_s)
         (log (Did (Destroy new_s))) ;;
       log (Did (Destroy (moved_from new_s)))
     else
       construct_at e (arg_op a) (arg_value a)) ;;
  (* size_++ *)
  v <- load this ;;
  store this (mkVector (data_ v) (size_ v + 1)) ;;
  b <- begin this ;;
  ret (ptr_add b new_pos).

Definition Erase (this : obj) (pos : ptr) : M ptr :=
  b <- begin this ;;
  new_pos <- ptr_diff pos b ;;
  e <- end_ this ;;
  std_move (ptr_add (ptr_add b new_pos) 1) e (ptr_add b new_pos) ;;
  PopBack this ;;
  b <- begin this ;;
  ret (ptr_add b new_pos).

(** [Insert(const_iterator pos, const T& value)] *)
Definition Insert (this : obj) (pos : ptr) (value : T) : M ptr :=
  Emplace this pos (Lvalue value).


(** [T& EmplaceBack(Args&&... args)], the reference as an address *)
Definition EmplaceBack (this : obj) (a : arg T) : M ptr :=
  e <- end_ this ;; Emplace this e a.

Definition PushBack (this : obj) (a : arg T) : M unit :=
  EmplaceBack this a ;; ret ().

(** *** Assignment *)

(** [Vector& operator=(const Vector& rhs)]; the result is [this] *)
Definition assign (this rhs : obj) : M obj :=
  (if decide (this ≠ rhs) then
     v <- load this ;;
     r <- load rhs ;;
     if decide (RawMemory.Capacity (data_ v) < size_ r) then
       rhs_copy <- copy_ctor rhs ;;
       Swap this rhs_copy ;;
       dtor rhs_copy
     else
       (if decide (size_ r < size_ v) then
          std_copy (RawMemory.GetAddress (data_ r))
                   (ptr_add (RawMemory.GetAddress (data_ r)) (size_ r))
                   (RawMemory.GetAddress (data_ v)) ;;
          destroy_n (ptr_add (RawMemory.GetAddress (data_ v)) (size_ r))
                    (size_ v - size_ r)
        else
          std_copy (RawMemory.GetAddress (data_ r))
                   (ptr_add (RawMemory.GetAddress (data_ r)) (size_ v))
                   (RawMemory.GetAddress (data_ v)) ;;
          uninitialized_copy_n
            (ptr_add (RawMemory.GetAddress (data_ r)) (size_ v))
            (size_ r - size_ v)
            (ptr_add (RawMemory.GetAddress (data_ v)) (size_ v))) ;;
       v <- load this ;;
       store this (mkVector (data_ v) (size_ r))
   else ret ()) ;;
  ret this.

(** [Vector& operator=(Vector&& rhs) noexcept] *)
Definition assign_rvalue (this rhs : obj) : M obj :=
  (if decide (this ≠ rhs) then Swap this rhs else ret ()) ;;
  ret this.

(** *** Constant iterators and the private helpers *)



(** [static void CopyConstruct(T* buf, const T& elem)] *)
Definition CopyConstruct (buf : ptr) (elem : T) : M unit :=
  construct_at buf (CopyCtor elem) elem.

(** [static void Destroy(T* buf) noexcept]: the destructor call on the
    object at [buf] *)
Definition Destroy (buf : ptr) : M unit := destroy_at buf.

(** [static void DestroyN(T* buf, size_t n) noexcept]: the loop at index
    [i], with [n] iterations to go *)
Fixpoint DestroyN_from (buf : ptr) (i n : nat) : M unit :=
  match n with
  | 0 => ret ()
  | S n' => Destroy (ptr_add buf i) ;; DestroyN_from buf (S i) n'
  end.

Definition DestroyN (buf : ptr) (n : nat) : M unit := DestroyN_from buf 0 n.

End Methods.
End Vector.

(** * Specifications *)

Section Vocabulary.
Context {T : Type} `{!Element T}.
Local Abbreviation M := (M T).

(** [wp m s Q E]: from [s], [m] has defined behaviour; when it returns
    [a] in state [s'], [Q a s'] holds; when it throws in state [s'],
    [E s'] holds. *)
Definition wp {A} (m : M A) (s : state T)
    (Q : A → state T → Prop) (E : state T → Prop) : Prop :=
  match m s with
  | Ret a s' => Q a s'
  | Throw s' => E s'
  | Undef => False
  end.

(** Some operation of the element type, or the allocator, can throw. *)
Definition throwing : Prop := ∃ tr o, throws tr o = true.

(** What the probe sees of the relocation of the elements [xs]. *)
Definition relocation (xs : list T) : list (event T) :=
  if is_nothrow_move_constructible || negb is_copy_constructible
  then (Did ∘ MoveCtor <$> xs) ++ (Did ∘ Destroy <$> (moved_from <$> xs))
  else (Did ∘ CopyCtor <$> xs) ++ (Did ∘ Destroy <$> xs).

(** The slots of a buffer of [cap] slots whose live elements are [xs]:
    slots [0, length xs) are live, slots [length xs, cap) are raw. *)
Definition cells (xs : list T) (cap : nat) : list (option T) :=
  (Some <$> xs) ++ replicate (cap - length xs) None.

(** The invariant of [RawMemory]: [buffer_] is null and [capacity_] is 0,
    or [buffer_] is the start of a block of [capacity_] slots, whose
    content is [blk]. *)
Definition buffer_is (s : state T) (r : RawMemory) (blk : list (option T)) : Prop :=
  length blk = capacity_ r
  ∧ match buffer_ r with
    | None => capacity_ r = 0
    | Some (b, i) => i = 0 ∧ heap s !! b = Some (Some blk)
    end.

(** The invariant of [Vector]: the object [v] holds the elements [xs]. *)
Definition holds (s : state T) (v : Vector) (xs : list T) : Prop :=
  size_ v = length xs
  ∧ length xs ≤ capacity_ (data_ v)
  ∧ buffer_is s (data_ v) (cells xs (capacity_ (data_ v))).

(** The object at address [this] is [v] and holds the elements [xs]. *)
Definition vector_at (s : state T) (this : obj) (v : Vector) (xs : list T) : Prop :=
  objs s !! this = Some (Some v) ∧ holds s v xs.

(** The state invariant in the words of the data model:
    [0 <= size <= capacity], slots [0, size) hold live elements and slots
    [size, capacity) are raw. *)
Definition invariant (s : state T) (v : Vector) : Prop :=
  size_ v ≤ capacity_ (data_ v)
  ∧ ∃ blk, buffer_is s (data_ v) blk
    ∧ (∀ i, i < size_ v → ∃ x, blk !! i = Some (Some x))
    ∧ (∀ i, size_ v ≤ i < capacity_ (data_ v) → blk !! i = Some None).

(** Two vectors own different blocks. *)
Definition separate (v r : Vector) : Prop :=
  ∀ b i j, buffer_ (data_ v) = Some (b, i) → buffer_ (data_ r) ≠ Some (b, j).

(** What the probe sees of the release of the buffer at [p]. *)
Definition freed (p : ptr) : list (event T) :=
  match p with
  | Some (b, _) => [Did (OpDelete b)]
  | None => []
  end.



(** [PushBack] of each argument in turn. *)
Fixpoint PushBack_each (this : obj) (l : list (arg T)) : M unit :=
  match l with
  | [] => ret ()
  | a :: l' => Vector.PushBack this a ;; PushBack_each this l'
  end.




End Vocabulary.

(** ** Probe element types

    Elements are numbers. A move leaves its source unchanged, and the move
    constructor is not declared [noexcept], so relocation copies. *)

(** No operation throws. *)
Definition sturdy : Element nat := {|
  value_init := 0;
  moved_from := λ x, x;
  is_nothrow_move_constructible := false;
  is_copy_constructible := true;
  throws := λ _ _, false;
|}.

(** The copy constructor throws when the source has value [2]. *)
Definition fragile : Element nat := {|
  value_init := 0;
  moved_from := λ x, x;
  is_nothrow_move_constructible := false;
  is_copy_constructible := true;
  throws := λ _ o, match o with CopyCtor 2 => true | _ => false end;
|}.

(** The move assignment throws when the source has value [1]. *)
Definition brittle : Element nat := {|
  value_init := 0;
  moved_from := λ x, x;
  is_nothrow_move_constructible := false;
  is_copy_constructible := true;
  throws := λ _ o, match o with MoveAssign 1 => true | _ => false end;
|}.

(** A vector [1, 2] of capacity 2 at address 0 and a vector [7] of
    capacity 1 at address 1. *)
Definition two_vectors : state nat := {|
  heap := [Some [Some 1; Some 2]; Some [Some 7]];
  objs := [Some (mkVector (mkRawMemory (Some (0, 0)) 2) 2);
           Some (mkVector (mkRawMemory (Some (1, 0)) 1) 1)];
  trace := [];
|}.

(** A vector [1, 2] of capacity 3 at address 0. *)
Definition roomy_vector : state nat := {|
  heap := [Some [Some 1; Some 2; None]];
  objs := [Some (mkVector (mkRawMemory (Some (0, 0)) 3) 2)];
  trace := [];
|}.

(** A default-constructed vector at address 0. *)
Definition empty_vector : state nat := {|
  heap := [];
  objs := [Some (mkVector (mkRawMemory None 0) 0)];
  trace := [];
|}.

(** * Reasoning about outcomes *)

Section Reasoning.
Context {T : Type} `{!Element T}.
Local Abbreviation M := (M T).

Lemma may_throw_throwing tr o : may_throw tr o = true → throwing.
Proof.
  unfold may_throw. intros Hm. exists tr, o.
  destruct o; try done. by apply andb_true_iff in Hm as [_ ?].
Qed.

Lemma wp_ret {A} (a : A) (s : state T) Q E : Q a s → wp (ret a) s Q E.
Proof. done. Qed.

Lemma wp_bind {A B} (m : M A) (f : A → M B) (s : state T) Q E :
  wp m s (λ a s', wp (f a) s' Q E) E → wp (x <- m ;; f x) s Q E.
Proof. unfold wp, bind. by destruct (m s). Qed.

Lemma wp_mono {A} (m : M A) s (Q Q' : A → state T → Prop) (E E' : state T → Prop) :
  wp m s Q E → (∀ a s', Q a s' → Q' a s') → (∀ s', E s' → E' s') →
  wp m s Q' E'.
Proof. unfold wp. destruct (m s); auto. Qed.

Lemma wp_on_throw {A} (m : M A) (h : M unit) (s : state T) Q E :
  wp m s Q (λ s', wp h s' (λ _ s'', E s'') E) →
  wp (on_throw m h) s Q E.
Proof.
  unfold wp, on_throw. destruct (m s) as [a s'|s'|]; [done| |done].
  by destruct (h s').
Qed.

Lemma wp_eq {A} (m : M A) (s : state T) r Q E :
  m s = r →
  match r with Ret a s' => Q a s' | Throw s' => E s' | Undef => False end →
  wp m s Q E.
Proof. unfold wp. by intros ->. Qed.

Lemma bind_Ret {A B} (m : M A) (f : A → M B) s a s' :
  m s = Ret a s' → (x <- m ;; f x) s = f a s'.
Proof. unfold bind. by intros ->. Qed.

Lemma bind_Throw {A B} (m : M A) (f : A → M B) s s' :
  m s = Throw s' → (x <- m ;; f x) s = Throw s'.
Proof. unfold bind. by intros ->. Qed.

(** ** Lists as blocks *)

Lemma lookup_mid {A} (pre post : list A) c i :
  i = length pre → (pre ++ c :: post) !! i = Some c.
Proof. intros ->. by apply list_lookup_middle. Qed.

Lemma insert_mid {A} (pre post : list A) c c' i :
  i = length pre → <[i := c']> (pre ++ c :: post) = pre ++ c' :: post.
Proof.
  intros ->. rewrite insert_app_r_alt by lia.
  by rewrite Nat.sub_diag.
Qed.

Lemma length_mid {A} (pre post : list A) c i :
  i = length pre → i < length (pre ++ c :: post).
Proof. intros ->. rewrite length_app. simpl. lia. Qed.

(** ** Slots *)

Lemma get_slot_mid b i pre c post (s : state T) :
  heap s !! b = Some (Some (pre ++ c :: post)) → i = length pre →
  get_slot (Some (b, i)) s = Ret c s.
Proof.
  intros Hb Hi. unfold get_slot. rewrite Hb.
  by rewrite (lookup_mid pre post c i Hi).
Qed.

Lemma set_slot_mid b i pre c c' post (s : state T) :
  heap s !! b = Some (Some (pre ++ c :: post)) → i = length pre →
  set_slot (Some (b, i)) c' s
  = Ret () (mkState (<[b := Some (pre ++ c' :: post)]> (heap s)) (objs s) (trace s)).
Proof.
  intros Hb Hi. unfold set_slot. rewrite Hb.
  rewrite decide_True by by apply length_mid.
  by rewrite (insert_mid pre post c c' i Hi).
Qed.

Lemma read_mid b i pre x post (s : state T) :
  heap s !! b = Some (Some (pre ++ Some x :: post)) → i = length pre →
  read (Some (b, i)) s = Ret x s.
Proof.
  intros Hb Hi. unfold read.
  by rewrite (bind_Ret _ _ _ _ _ (get_slot_mid _ _ _ _ _ _ Hb Hi)).
Qed.

Lemma raw_mid b i pre post (s : state T) :
  heap s !! b = Some (Some (pre ++ None :: post)) → i = length pre →
  raw (Some (b, i)) s = Ret () s.
Proof.
  intros Hb Hi. unfold raw.
  by rewrite (bind_Ret _ _ _ _ _ (get_slot_mid _ _ _ _ _ _ Hb Hi)).
Qed.

Lemma heap_insert_eq (h : list (option (list (option T)))) b blk c :
  h !! b = Some c → <[b := blk]> h !! b = Some blk.
Proof. intros Hb. apply list_lookup_insert_eq. by eapply lookup_lt_Some. Qed.

(** ** Element operations on decomposed blocks *)

Lemma construct_at_mid b i pre post o x (s : state T) :
  heap s !! b = Some (Some (pre ++ None :: post)) → i = length pre →
  construct_at (Some (b, i)) o x s
  = if may_throw (trace s) o
    then Throw (mkState (heap s) (objs s) (trace s ++ [Threw o]))
    else Ret () (mkState (<[b := Some (pre ++ Some x :: post)]> (heap s))
                         (objs s) (trace s ++ [Did o])).
Proof.
  intros Hb Hi. unfold construct_at, bind.
  rewrite (raw_mid _ _ _ _ _ Hb Hi). unfold attempt.
  destruct (may_throw (trace s) o); [done|].
  by rewrite (set_slot_mid b i pre None (Some x) post).
Qed.

Lemma copy_construct_at_mid bs j spre x spost b i pre post (s : state T) :
  heap s !! bs = Some (Some (spre ++ Some x :: spost)) → j = length spre →
  heap s !! b = Some (Some (pre ++ None :: post)) → i = length pre →
  copy_construct_at (Some (b, i)) (Some (bs, j)) s
  = if may_throw (trace s) (CopyCtor x)
    then Throw (mkState (heap s) (objs s) (trace s ++ [Threw (CopyCtor x)]))
    else Ret () (mkState (<[b := Some (pre ++ Some x :: post)]> (heap s))
                         (objs s) (trace s ++ [Did (CopyCtor x)])).
Proof.
  intros Hs Hj Hb Hi. unfold copy_construct_at.
  rewrite (bind_Ret _ _ _ _ _ (read_mid _ _ _ _ _ _ Hs Hj)).
  by apply construct_at_mid.
Qed.

(** Move construction from one block into another. *)
Lemma move_construct_at_mid bs j spre x spost b i pre post (s : state T) :
  bs ≠ b →
  heap s !! bs = Some (Some (spre ++ Some x :: spost)) → j = length spre →
  heap s !! b = Some (Some (pre ++ None :: post)) → i = length pre →
  move_construct_at (Some (b, i)) (Some (bs, j)) s
  = if may_throw (trace s) (MoveCtor x)
    then Throw (mkState (heap s) (objs s) (trace s ++ [Threw (MoveCtor x)]))
    else Ret () (mkState
                   (<[b := Some (pre ++ Some x :: post)]>
                      (<[bs := Some (spre ++ Some (moved_from x) :: spost)]> (heap s)))
                   (objs s) (trace s ++ [Did (MoveCtor x)])).
Proof.
  intros Hne Hs Hj Hb Hi. unfold move_construct_at.
  rewrite (bind_Ret _ _ _ _ _ (read_mid _ _ _ _ _ _ Hs Hj)).
  rewrite (bind_Ret _ _ _ _ _ (raw_mid _ _ _ _ _ Hb Hi)).
  unfold bind at 1, attempt.
  destruct (may_throw (trace s) (MoveCtor x)); [done|].
  erewrite bind_Ret; last by apply (set_slot_mid bs j spre (Some x) _ spost).
  apply (set_slot_mid b i pre None (Some x) post); [|done]. simpl.
  by rewrite list_lookup_insert_ne.
Qed.


Lemma copy_assign_mid bs j spre x spost b i pre y post (s : state T) :
  heap s !! bs = Some (Some (spre ++ Some x :: spost)) → j = length spre →
  heap s !! b = Some (Some (pre ++ Some y :: post)) → i = length pre →
  copy_assign (Some (b, i)) (Some (bs, j)) s
  = if may_throw (trace s) (CopyAssign x)
    then Throw (mkState (heap s) (objs s) (trace s ++ [Threw (CopyAssign x)]))
    else Ret () (mkState (<[b := Some (pre ++ Some x :: post)]> (heap s))
                         (objs s) (trace s ++ [Did (CopyAssign x)])).
Proof.
  intros Hs Hj Hb Hi. unfold copy_assign.
  rewrite (bind_Ret _ _ _ _ _ (read_mid _ _ _ _ _ _ Hs Hj)).
  rewrite (bind_Ret _ _ _ _ _ (read_mid _ _ _ _ _ _ Hb Hi)).
  unfold bind, attempt.
  destruct (may_throw (trace s) (CopyAssign x)); [done|].
  by apply (set_slot_mid b i pre (Some y) (Some x) post).
Qed.




Lemma destroy_at_mid b i pre x post (s : state T) :
  heap s !! b = Some (Some (pre ++ Some x :: post)) → i = length pre →
  destroy_at (Some (b, i)) s
  = Ret () (mkState (<[b := Some (pre ++ None :: post)]> (heap s))
                    (objs s) (trace s ++ [Did (Destroy x)])).
Proof.
  intros Hb Hi. unfold destroy_at.
  rewrite (bind_Ret _ _ _ _ _ (read_mid _ _ _ _ _ _ Hb Hi)).
  unfold bind, log.
  by apply (set_slot_mid b i pre (Some x) None post).
Qed.

(** ** The algorithms *)

Lemma destroy_n_mid b i pre ys post (s : state T) :
  heap s !! b = Some (Some (pre ++ (Some <$> ys) ++ post)) → i = length pre →
  destroy_n (Some (b, i)) (length ys) s
  = Ret () (mkState
              (<[b := Some (pre ++ replicate (length ys) None ++ post)]> (heap s))
              (objs s) (trace s ++ (Did ∘ Destroy <$> ys))).
Proof.
  revert i pre s. induction ys as [|y ys IH]; intros i pre s Hb Hi; simpl.
  - unfold ret. destruct s as [h o t]; simpl in *.
    by rewrite app_nil_r, list_insert_id.
  - erewrite bind_Ret; last by apply (destroy_at_mid b i pre y _ s Hb Hi).
    rewrite (IH (i + 1) (pre ++ [None])); simpl.
    + by rewrite list_insert_insert_eq, <-!app_assoc.
    + rewrite <-app_assoc. by eapply heap_insert_eq.
    + rewrite length_app. simpl. lia.
Qed.

Lemma uninitialized_value_construct_from_spec b k pre done n post i (s : state T) :
  heap s !! b = Some (Some (pre ++ (Some <$> done) ++ replicate n None ++ post)) →
  k = length pre → i = length done →
  wp (uninitialized_value_construct_from (Some (b, k)) i n) s
     (λ _ s',
        heap s' = <[b := Some (pre ++ (Some <$> done ++ replicate n value_init) ++ post)]> (heap s)
        ∧ objs s' = objs s
        ∧ trace s' = trace s ++ replicate n (Did ValueInit))
     (λ s',
        throwing
        ∧ heap s' = <[b := Some (pre ++ replicate (length done + n) None ++ post)]> (heap s)
        ∧ objs s' = objs s).
Proof.
  revert done i s. induction n as [|n IH]; intros done i s Hb Hk Hi; simpl.
  - apply wp_ret. rewrite app_nil_r. simpl in Hb.
    by rewrite list_insert_id, app_nil_r.
  - simpl in Hb. apply wp_bind, wp_on_throw.
    assert (Hb' : heap s !! b = Some (Some
      ((pre ++ (Some <$> done)) ++ None :: (replicate n None ++ post))))
      by by rewrite <-app_assoc.
    assert (Hi' : k + i = length (pre ++ (Some <$> done)))
      by (rewrite length_app, length_fmap; lia).
    eapply wp_eq.
    { unfold value_construct_at. by apply (construct_at_mid _ _ _ _ _ _ _ Hb' Hi'). }
    destruct (may_throw (trace s) ValueInit) eqn:Hthrow.
    + eapply wp_eq.
      { subst i. apply destroy_n_mid; simpl; [exact Hb|exact Hk]. }
      simpl. split_and!; [by eapply may_throw_throwing| |done].
      by rewrite replicate_add, <-app_assoc.
    + eapply wp_mono.
      { apply (IH (done ++ [value_init]) (S i)); simpl.
        - rewrite fmap_app, <-!app_assoc. simpl. by eapply heap_insert_eq.
        - done.
        - rewrite length_app. simpl. lia. }
      * intros _ s' (Hh & Ho & Ht). simpl in *. split_and!; [|done|].
        -- by rewrite Hh, list_insert_insert_eq, <-app_assoc.
        -- by rewrite Ht, <-app_assoc.
      * intros s' (Hth & Hh & Ho). simpl in *. split_and!; [done| |done].
        rewrite Hh, list_insert_insert_eq, length_app. simpl.
        by replace (length done + 1 + n) with (length done + S n) by lia.
Qed.

Lemma uninitialized_copy_from_spec bs j spre spost b k pre post done todo i
    (s : state T) :
  bs ≠ b →
  heap s !! bs = Some (Some (spre ++ (Some <$> done ++ todo) ++ spost)) →
  heap s !! b = Some (Some
    (pre ++ (Some <$> done) ++ replicate (length todo) None ++ post)) →
  j = length spre → k = length pre → i = length done →
  wp (uninitialized_copy_from (Some (bs, j)) (Some (b, k)) i (length todo)) s
     (λ _ s',
        heap s' = <[b := Some (pre ++ (Some <$> done ++ todo) ++ post)]> (heap s)
        ∧ objs s' = objs s
        ∧ trace s' = trace s ++ (Did ∘ CopyCtor <$> todo))
     (λ s',
        throwing
        ∧ heap s' = <[b := Some (pre ++ replicate (length done + length todo) None ++ post)]> (heap s)
        ∧ objs s' = objs s
        ∧ todo ≠ []).
Proof.
  revert done i s.
  induction todo as [|x todo IH]; intros done i s Hne Hs Hb Hj Hk Hi; simpl.
  - apply wp_ret. rewrite !app_nil_r. simpl in Hb.
    by rewrite list_insert_id.
  - simpl in Hb. apply wp_bind, wp_on_throw.
    assert (Hb' : heap s !! b = Some (Some
      ((pre ++ (Some <$> done)) ++ None :: (replicate (length todo) None ++ post))))
      by by rewrite <-app_assoc.
    assert (Hi' : k + i = length (pre ++ (Some <$> done)))
      by (rewrite length_app, length_fmap; lia).
    assert (Hs' : heap s !! bs = Some (Some
      ((spre ++ (Some <$> done)) ++ Some x :: ((Some <$> todo) ++ spost)))).
    { rewrite Hs, fmap_app, <-!app_assoc. by simpl. }
    assert (Hj' : j + i = length (spre ++ (Some <$> done)))
      by (rewrite length_app, length_fmap; lia).
    eapply wp_eq.
    { by apply (copy_construct_at_mid _ _ _ _ _ _ _ _ _ _ Hs' Hj' Hb' Hi'). }
    destruct (may_throw (trace s) (CopyCtor x)) eqn:Hthrow.
    + eapply wp_eq.
      { subst i. apply destroy_n_mid; simpl; [exact Hb|exact Hk]. }
      simpl. split_and!; [by eapply may_throw_throwing| |done|done].
      by rewrite replicate_add, <-app_assoc.
    + eapply wp_mono.
      { apply (IH (done ++ [x]) (S i)); simpl; [done| | |done|done|].
        - rewrite list_lookup_insert_ne by done.
          by rewrite Hs, <-(app_assoc done).
        - rewrite fmap_app, <-!app_assoc. simpl. by eapply heap_insert_eq.
        - rewrite length_app. simpl. lia. }
      * intros _ s' (Hh & Ho & Ht). simpl in *. split_and!; [|done|].
        -- by rewrite Hh, list_insert_insert_eq, <-(app_assoc done).
        -- by rewrite Ht, <-app_assoc.
      * intros s' (Hth & Hh & Ho & _). simpl in *.
        split_and!; [done| |done|done].
        rewrite Hh, list_insert_insert_eq, length_app. simpl.
        by replace (length done + 1 + length todo)
          with (length done + S (length todo)) by lia.
Qed.

Lemma heap_insert_twice {A} (h : list A) b bs B1 S1 B2 S2 :
  bs ≠ b →
  <[b := B2]> (<[bs := S2]> (<[b := B1]> (<[bs := S1]> h)))
  = <[b := B2]> (<[bs := S2]> h).
Proof.
  intros Hne.
  rewrite (list_insert_insert_ne _ bs b) by done.
  by rewrite !list_insert_insert_eq.
Qed.

Lemma uninitialized_move_from_spec bs j spre spost b k pre post done todo i
    (s : state T) :
  bs ≠ b →
  heap s !! bs = Some (Some
    (spre ++ (Some <$> (moved_from <$> done) ++ todo) ++ spost)) →
  heap s !! b = Some (Some
    (pre ++ (Some <$> done) ++ replicate (length todo) None ++ post)) →
  j = length spre → k = length pre → i = length done →
  wp (uninitialized_move_from (Some (bs, j)) (Some (b, k)) i (length todo)) s
     (λ _ s',
        heap s' = <[b := Some (pre ++ (Some <$> done ++ todo) ++ post)]>
                    (<[bs := Some (spre ++ (Some <$> (moved_from <$> done ++ todo)) ++ spost)]>
                       (heap s))
        ∧ objs s' = objs s
        ∧ trace s' = trace s ++ (Did ∘ MoveCtor <$> todo))
     (λ s',
        throwing ∧ is_nothrow_move_constructible = false
        ∧ objs s' = objs s
        ∧ todo ≠ []
        ∧ ∃ ys, length ys = length done + length todo
          ∧ heap s' = <[b := Some (pre ++ replicate (length done + length todo) None ++ post)]>
                        (<[bs := Some (spre ++ (Some <$> ys) ++ spost)]> (heap s))).
Proof.
  revert done i s.
  induction todo as [|x todo IH]; intros done i s Hne Hs Hb Hj Hk Hi; simpl.
  - apply wp_ret. rewrite !app_nil_r in *. simpl in Hb.
    by rewrite (list_insert_id _ bs), (list_insert_id _ b).
  - simpl in Hb. apply wp_bind, wp_on_throw.
    assert (Hb' : heap s !! b = Some (Some
      ((pre ++ (Some <$> done)) ++ None :: (replicate (length todo) None ++ post))))
      by by rewrite <-app_assoc.
    assert (Hi' : k + i = length (pre ++ (Some <$> done)))
      by (rewrite length_app, length_fmap; lia).
    assert (Hs' : heap s !! bs = Some (Some
      ((spre ++ (Some <$> (moved_from <$> done))) ++ Some x :: ((Some <$> todo) ++ spost)))).
    { rewrite Hs, fmap_app, <-!app_assoc. by simpl. }
    assert (Hj' : j + i = length (spre ++ (Some <$> (moved_from <$> done))))
      by (rewrite length_app, !length_fmap; lia).
    eapply wp_eq.
    { by apply (move_construct_at_mid _ _ _ _ _ _ _ _ _ _ Hne Hs' Hj' Hb' Hi'). }
    destruct (may_throw (trace s) (MoveCtor x)) eqn:Hthrow.
    + eapply wp_eq.
      { subst i. apply destroy_n_mid; simpl; [exact Hb|exact Hk]. }
      simpl. split_and!; [by eapply may_throw_throwing| |done|done|].
      { unfold may_throw in Hthrow. apply andb_true_iff in Hthrow as [Hn _].
        by apply negb_true_iff in Hn. }
      exists ((moved_from <$> done) ++ x :: todo). split.
      { rewrite length_app, length_fmap. simpl. lia. }
      rewrite (list_insert_id _ bs) by done.
      by rewrite replicate_add, <-app_assoc.
    + eapply wp_mono.
      { apply (IH (done ++ [x]) (S i)); simpl; [done| | |done|done|].
        - rewrite list_lookup_insert_ne by done.
          erewrite heap_insert_eq by done.
          by rewrite !fmap_app, <-!app_assoc.
        - erewrite heap_insert_eq.
          + by rewrite fmap_app, <-!app_assoc.
          + by rewrite list_lookup_insert_ne.
        - rewrite length_app. simpl. lia. }
      * intros _ s' (Hh & Ho & Ht). simpl in *. split_and!; [|done|].
        -- by rewrite Hh, heap_insert_twice, <-!(app_assoc done).
        -- by rewrite Ht, <-app_assoc.
      * intros s' (Hth & Hn & Ho & _ & ys & Hys & Hh). simpl in *.
        split_and!; [done|done|done|done|]. exists ys. split.
        { rewrite Hys, length_app. simpl. lia. }
        rewrite Hh, heap_insert_twice by done. rewrite length_app. simpl.
        by replace (length done + 1 + length todo)
          with (length done + S (length todo)) by lia.
Qed.

Lemma copy_loop_spec bs j spre xs spost b k pre ys post (s : state T) :
  bs ≠ b → length ys = length xs →
  heap s !! bs = Some (Some (spre ++ (Some <$> xs) ++ spost)) →
  heap s !! b = Some (Some (pre ++ (Some <$> ys) ++ post)) →
  j = length spre → k = length pre →
  wp (copy_loop (Some (bs, j)) (Some (b, k)) (length xs)) s
     (λ _ s',
        heap s' = <[b := Some (pre ++ (Some <$> xs) ++ post)]> (heap s)
        ∧ objs s' = objs s
        ∧ trace s' = trace s ++ (Did ∘ CopyAssign <$> xs))
     (λ _, throwing).
Proof.
  revert ys j spre k pre s.
  induction xs as [|x xs IH]; intros ys j spre k pre s Hne Hlen Hs Hb Hj Hk.
  - destruct ys; [|done]. apply wp_ret. simpl in *.
    by rewrite list_insert_id, app_nil_r.
  - destruct ys as [|y ys]; [done|]. simpl in *. apply wp_bind.
    eapply wp_eq; [by apply (copy_assign_mid _ _ _ _ _ _ _ _ _ _ _ Hs Hj Hb Hk)|].
    destruct (may_throw (trace s) (CopyAssign x)) eqn:Hthrow;
      [by eapply may_throw_throwing|].
    eapply wp_mono.
    { apply (IH ys (j + 1) (spre ++ [Some x]) (k + 1) (pre ++ [Some x]));
        simpl; [done|lia| | | |].
      - rewrite list_lookup_insert_ne by done. by rewrite <-app_assoc.
      - rewrite <-app_assoc. by eapply heap_insert_eq.
      - rewrite length_app. simpl. lia.
      - rewrite length_app. simpl. lia. }
    + intros _ s' (Hh & Ho & Ht). simpl in *. split_and!; [|done|].
      * by rewrite Hh, list_insert_insert_eq, <-app_assoc.
      * by rewrite Ht, <-app_assoc.
    + done.
Qed.



(** ** Relocation *)

Lemma CopyOrMoveElements_0 p q (s : state T) :
  Vector.CopyOrMoveElements p q 0 s = Ret () s.
Proof.
  unfold Vector.CopyOrMoveElements.
  by destruct (is_nothrow_move_constructible || negb is_copy_constructible).
Qed.

Lemma CopyOrMoveElements_spec bs j spre xs spost b k pre post (s : state T) :
  bs ≠ b →
  heap s !! bs = Some (Some (spre ++ (Some <$> xs) ++ spost)) →
  heap s !! b = Some (Some (pre ++ replicate (length xs) None ++ post)) →
  j = length spre → k = length pre →
  wp (Vector.CopyOrMoveElements (Some (bs, j)) (Some (b, k)) (length xs)) s
     (λ _ s',
        heap s' = <[bs := Some (spre ++ replicate (length xs) None ++ spost)]>
                    (<[b := Some (pre ++ (Some <$> xs) ++ post)]> (heap s))
        ∧ objs s' = objs s
        ∧ trace s' = trace s ++ relocation xs)
     (λ s',
        throwing ∧ objs s' = objs s ∧ xs ≠ []
        ∧ ∃ ys, length ys = length xs
          ∧ (is_copy_constructible = true → ys = xs)
          ∧ heap s' = <[bs := Some (spre ++ (Some <$> ys) ++ spost)]> (heap s)).
Proof.
  intros Hne Hs Hb Hj Hk. unfold Vector.CopyOrMoveElements, relocation.
  apply wp_bind.
  destruct (is_nothrow_move_constructible || negb is_copy_constructible) eqn:Hmode.
  - eapply wp_mono.
    { by apply (uninitialized_move_from_spec bs j spre spost b k pre post [] xs 0). }
    + intros _ s' (Hh & Ho & Ht). simpl in *.
      eapply wp_eq.
      { rewrite <-(length_fmap moved_from xs).
        apply (destroy_n_mid bs j spre (moved_from <$> xs) spost); [|done].
        rewrite Hh, list_lookup_insert_ne by done.
        by eapply heap_insert_eq. }
      simpl. rewrite length_fmap. split_and!; [|done|].
      * rewrite Hh, (list_insert_insert_ne _ bs b) by done.
        rewrite list_insert_insert_eq. by apply list_insert_insert_ne.
      * by rewrite Ht, <-app_assoc.
    + intros s' (Hth & Hn & Ho & Hnil & ys & Hys & Hh). simpl in *.
      split_and!; [done|done|done|]. exists ys. split_and!; [done| |].
      * intros Hc. rewrite Hn, Hc in Hmode. done.
      * rewrite Hh. apply list_insert_id.
        by rewrite list_lookup_insert_ne.
  - eapply wp_mono.
    { by apply (uninitialized_copy_from_spec bs j spre spost b k pre post [] xs 0). }
    + intros _ s' (Hh & Ho & Ht). simpl in *.
      eapply wp_eq.
      { apply (destroy_n_mid bs j spre xs spost); [|done].
        by rewrite Hh, list_lookup_insert_ne. }
      simpl. split_and!; [|done|].
      * by rewrite Hh.
      * by rewrite Ht, <-app_assoc.
    + intros s' (Hth & Hh & Ho & Hnil). simpl in *.
      split_and!; [done|done|done|]. exists xs. split_and!; [done|done|].
      rewrite Hh, (list_insert_id _ bs) by done.
      by apply list_insert_id.
Qed.

(** ** The object store *)

Lemma load_eq this v (s : state T) :
  objs s !! this = Some (Some v) → Vector.load this s = Ret v s.
Proof. unfold Vector.load. by intros ->. Qed.

Lemma store_eq this v v' (s : state T) :
  objs s !! this = Some (Some v) →
  Vector.store this v' s
  = Ret () (mkState (heap s) (<[this := Some v']> (objs s)) (trace s)).
Proof. unfold Vector.store. by intros ->. Qed.

Lemma objs_insert_eq (o : list (option Vector)) this v c :
  o !! this = Some c → <[this := v]> o !! this = Some v.
Proof. intros Ho. apply list_lookup_insert_eq. by eapply lookup_lt_Some. Qed.

End Reasoning.

(** * The methods of Vector *)

(** Lookups in a memory or an object store after updates. *)
Ltac solve_lt :=
  rewrite ?length_insert, ?length_app; simpl;
  match goal with
  | H : ?l !! ?i = Some _ |- ?i < length ?l + _ =>
      pose proof (lookup_lt_Some _ _ _ H); lia
  | H : ?l !! ?i = Some _ |- ?i < length ?l =>
      exact (lookup_lt_Some _ _ _ H)
  | _ => lia
  end.

Ltac lookup_tac :=
  simpl;
  repeat first
    [ rewrite list_lookup_insert_ne by (done || lia)
    | rewrite list_lookup_insert_eq by solve_lt
    | rewrite lookup_app_l by solve_lt
    | rewrite list_lookup_middle by (done || lia) ];
  try done.

(** Case analysis on whether the operation at hand throws; the throwing
    case is closed when nothing is to be shown about the state. *)
Ltac case_throw :=
  match goal with
  | |- context [if may_throw ?t ?o then _ else _] =>
      let H := fresh "Hthrow" in
      destruct (may_throw t o) eqn:H;
      [try (unfold wp, log; simpl; by eapply may_throw_throwing)|]
  end.

Section MethodSpecs.
Context {T : Type} `{!Element T}.
Local Abbreviation M := (M T).

Lemma holds_same_heap (s s' : state T) v xs :
  heap s' = heap s → holds s v xs → holds s' v xs.
Proof.
  unfold holds, buffer_is. intros ->. done.
Qed.

Lemma holds_frame (s s' : state T) v xs :
  holds s v xs →
  (∀ b i, buffer_ (data_ v) = Some (b, i) → heap s' !! b = heap s !! b) →
  holds s' v xs.
Proof.
  unfold holds, buffer_is. intros (Hsz & Hcap & Hlen & Hb) Hfr.
  split_and!; [done..|].
  destruct (buffer_ (data_ v)) as [[b i]|]; [|done].
  destruct Hb as [-> Hb]. split; [done|]. by rewrite (Hfr b 0).
Qed.

(** ** Swap and the moves *)

Lemma Swap_eq a b va vb (s : state T) :
  a ≠ b →
  objs s !! a = Some (Some va) → objs s !! b = Some (Some vb) →
  Vector.Swap a b s
  = Ret () (mkState (heap s) (<[b := Some va]> (<[a := Some vb]> (objs s))) (trace s)).
Proof.
  intros Hne Ha Hb. destruct va as [da na], vb as [db nb].
  unfold Vector.Swap.
  rewrite (bind_Ret _ _ _ _ _ (load_eq _ _ _ Ha)).
  rewrite (bind_Ret _ _ _ _ _ (load_eq _ _ _ Hb)). simpl.
  rewrite (bind_Ret _ _ _ _ _ (store_eq _ _ _ _ Ha)).
  erewrite bind_Ret; last by (apply load_eq; lookup_tac).
  erewrite bind_Ret; last by (eapply store_eq; lookup_tac).
  erewrite bind_Ret; last by (apply load_eq; lookup_tac).
  erewrite bind_Ret; last by (apply load_eq; lookup_tac).
  erewrite bind_Ret; last by (eapply store_eq; lookup_tac).
  erewrite bind_Ret; last by (apply load_eq; lookup_tac).
  erewrite store_eq; last by lookup_tac.
  destruct da, db. simpl. by rewrite heap_insert_twice.
Qed.

Lemma move_ctor_spec (s : state T) x vx xs :
  vector_at s x vx xs →
  wp (Vector.move_ctor x) s
     (λ d s',
        vector_at s' d vx xs
        ∧ vector_at s' x (mkVector RawMemory.default 0) []
        ∧ d = length (objs s) ∧ heap s' = heap s ∧ trace s' = trace s)
     (λ _, False).
Proof.
  intros [Hx Hh]. unfold Vector.move_ctor, Vector.new_object.
  assert (Hlt : x < length (objs s)) by by eapply lookup_lt_Some.
  apply wp_bind. unfold wp at 1. apply wp_bind.
  eapply wp_eq.
  { apply (Swap_eq _ _ (mkVector RawMemory.default 0) vx); simpl.
    - lia.
    - by apply list_lookup_middle.
    - by rewrite lookup_app_l. }
  apply wp_ret. simpl. split_and!; try done.
  - split; [|by eapply holds_same_heap]. simpl.
    rewrite list_lookup_insert_ne by lia.
    rewrite list_lookup_insert_eq by (rewrite length_app; simpl; lia). done.
  - split; simpl.
    + rewrite list_lookup_insert_eq; [done|].
      rewrite length_insert, length_app. simpl. lia.
    + done.
Qed.

Lemma assign_rvalue_spec (s : state T) d vd ds x vx xs :
  d ≠ x → vector_at s d vd ds → vector_at s x vx xs →
  wp (Vector.assign_rvalue d x) s
     (λ r s',
        vector_at s' d vx xs ∧ vector_at s' x vd ds
        ∧ r = d ∧ heap s' = heap s ∧ trace s' = trace s)
     (λ _, False).
Proof.
  intros Hne [Hd Hhd] [Hx Hhx]. unfold Vector.assign_rvalue.
  rewrite decide_True by done. apply wp_bind.
  eapply wp_eq; [by apply (Swap_eq d x vd vx)|].
  apply wp_ret. simpl. split_and!; try done.
  - split; [lookup_tac|by eapply holds_same_heap].
  - split; [lookup_tac|by eapply holds_same_heap].
Qed.

(** ** RawMemory *)

Lemma RawMemory_new_eq n (s : state T) :
  n ≠ 0 →
  RawMemory.new n s
  = if may_throw (trace s) (OpNew n)
    then Throw (mkState (heap s) (objs s) (trace s ++ [Threw (OpNew n)]))
    else Ret (mkRawMemory (Some (length (heap s), 0)) n)
             (mkState (heap s ++ [Some (replicate n None)]) (objs s)
                      (trace s ++ [Did (OpNew n)])).
Proof.
  intros Hn. unfold RawMemory.new, RawMemory.Allocate, bind, attempt.
  rewrite decide_False by done.
  by destruct (may_throw (trace s) (OpNew n)).
Qed.

Lemma RawMemory_new_0 (s : state T) :
  RawMemory.new 0 s = Ret RawMemory.default s.
Proof. done. Qed.

Lemma RawMemory_delete_eq r (s : state T) blk :
  buffer_is s r blk →
  RawMemory.delete r s
  = Ret () (mkState
              (match buffer_ r with
               | Some (b, _) => <[b := None]> (heap s)
               | None => heap s
               end)
              (objs s) (trace s ++ freed (buffer_ r))).
Proof.
  unfold buffer_is, RawMemory.delete, RawMemory.Deallocate, freed.
  intros [_ Hb]. destruct (buffer_ r) as [[b i]|].
  - destruct Hb as [-> ->]. done.
  - unfold ret. destruct s. simpl. by rewrite app_nil_r.
Qed.

Lemma begin_eq this v (s : state T) :
  objs s !! this = Some (Some v) →
  Vector.begin this s = Ret (buffer_ (data_ v)) s.
Proof.
  intros Hv. unfold Vector.begin.
  by rewrite (bind_Ret _ _ _ _ _ (load_eq _ _ _ Hv)).
Qed.

Lemma end_eq this v (s : state T) :
  objs s !! this = Some (Some v) →
  Vector.end_ this s = Ret (ptr_add (buffer_ (data_ v)) (size_ v)) s.
Proof.
  intros Hv. unfold Vector.end_.
  by rewrite (bind_Ret _ _ _ _ _ (load_eq _ _ _ Hv)).
Qed.

(** A vector with a null buffer is empty. *)
Lemma holds_null (s : state T) v xs :
  holds s v xs → buffer_ (data_ v) = None →
  xs = [] ∧ size_ v = 0 ∧ capacity_ (data_ v) = 0.
Proof.
  intros (Hsz & Hle & _ & Hb) Hnull. rewrite Hnull in Hb.
  assert (length xs = 0) as Hx by lia.
  apply nil_length_inv in Hx. subst. simpl in *. done.
Qed.

Lemma holds_block (s : state T) v xs b i :
  holds s v xs → buffer_ (data_ v) = Some (b, i) →
  i = 0 ∧ heap s !! b = Some (Some (cells xs (capacity_ (data_ v))))
  ∧ size_ v = length xs ∧ length xs ≤ capacity_ (data_ v).
Proof.
  intros (Hsz & Hle & _ & Hb) Hbuf. rewrite Hbuf in Hb.
  by destruct Hb.
Qed.

Lemma length_cells (xs : list T) cap :
  length xs ≤ cap → length (cells xs cap) = cap.
Proof.
  intros Hle. unfold cells.
  rewrite length_app, length_fmap, length_replicate. lia.
Qed.

(** ** Reserve *)

Lemma Reserve_spec (s : state T) this v xs n :
  vector_at s this v xs →
  wp (Vector.Reserve this n) s
     (λ _ s',
        if decide (n ≤ capacity_ (data_ v)) then s' = s
        else
          vector_at s' this
            (mkVector (mkRawMemory (Some (length (heap s), 0)) n) (size_ v)) xs
          ∧ trace s' = trace s ++ [Did (OpNew n)] ++ relocation xs
                         ++ freed (buffer_ (data_ v)))
     (λ s',
        throwing ∧ objs s' = objs s
        ∧ ∃ ys, holds s' v ys ∧ length ys = length xs
          ∧ (is_copy_constructible = true → ys = xs)).
Proof.
  intros [Hv Hh]. unfold Vector.Reserve, RawMemory.Capacity.
  apply wp_bind. eapply wp_eq; [by apply load_eq|]. simpl.
  destruct (decide (n ≤ capacity_ (data_ v))) as [Hle|Hgt]; [by apply wp_ret|].
  apply wp_bind. eapply wp_eq; [apply RawMemory_new_eq; lia|].
  destruct (may_throw (trace s) (OpNew n)) eqn:Hthrow.
  { split_and!; [by eapply may_throw_throwing|done|].
    exists xs. split_and!; [|done|done]. by eapply holds_same_heap. }
  apply wp_bind. eapply wp_eq; [by apply begin_eq|]. simpl.
  apply wp_bind, wp_on_throw. unfold RawMemory.GetAddress. simpl.
  destruct (buffer_ (data_ v)) as [[b i]|] eqn:Hbuf.
  - destruct (holds_block _ _ _ _ _ Hh Hbuf) as (-> & Hb & Hsz & Hcap).
    assert (Hlt : b < length (heap s)) by by eapply lookup_lt_Some.
    rewrite Hsz. eapply wp_mono.
    { apply (CopyOrMoveElements_spec b 0 [] xs
               (replicate (capacity_ (data_ v) - length xs) None)
               (length (heap s)) 0 [] (replicate (n - length xs) None));
        simpl; [lia| | |done|done].
      - rewrite lookup_app_l by done. exact Hb.
      - rewrite list_lookup_middle by done.
        rewrite <-replicate_add. do 3 f_equal. lia. }
    + intros _ s' (Hh' & Ho' & Ht'). simpl in *.
      apply wp_bind. eapply wp_eq.
      { eapply store_eq. rewrite Ho'. exact Hv. }
      eapply wp_eq.
      { eapply RawMemory_delete_eq. unfold buffer_is. simpl.
        split; [|split; [done|]].
        2:{ rewrite Hh'. by lookup_tac. }
        rewrite length_app, !length_replicate. lia. }
      simpl. split.
      * split; simpl; [rewrite Ho'; by lookup_tac|].
        unfold holds, buffer_is. simpl. split_and!; [done|lia| |done|].
        -- apply length_cells. lia.
        -- rewrite Hh'. by lookup_tac.
      * rewrite Ht'. simpl. by rewrite <-!app_assoc.
    + intros s' (Hth & Ho' & _ & ys & Hys & Hcopy & Hh'). simpl in *.
      eapply wp_eq.
      { eapply (RawMemory_delete_eq
                  (mkRawMemory (Some (length (heap s), 0)) n)
                  s' (replicate n None)).
        unfold buffer_is. simpl. rewrite length_replicate.
        split_and!; [done|done|]. rewrite Hh'. by lookup_tac. }
      simpl. split_and!; [done|done|]. exists ys. split_and!; [|done|done].
      unfold holds, buffer_is. rewrite Hbuf. split_and!; [lia|lia| |done|].
      * apply length_cells. lia.
      * rewrite Hh'. lookup_tac. unfold cells. by rewrite Hys.
  - destruct (holds_null _ _ _ Hh Hbuf) as (-> & Hsz & Hcap).
    rewrite Hsz. eapply wp_eq; [by apply CopyOrMoveElements_0|]. simpl.
    apply wp_bind. eapply wp_eq; [by eapply store_eq|].
    eapply wp_eq.
    { eapply RawMemory_delete_eq. unfold buffer_is. simpl.
      rewrite Hcap. by instantiate (1 := []). }
    simpl. split.
    + split; simpl; [by lookup_tac|].
      unfold holds, buffer_is. simpl.
      split_and!; [done|lia| |done|].
      * apply length_cells. simpl. lia.
      * rewrite list_lookup_middle by done. unfold cells. simpl.
        by rewrite Nat.sub_0_r.
    + unfold relocation. rewrite app_nil_r.
      by destruct (is_nothrow_move_constructible || negb is_copy_constructible).
Qed.

(** ** Resize *)

Lemma cells_app (xs ys : list T) cap :
  length xs + length ys ≤ cap →
  cells (xs ++ ys) cap
  = (Some <$> xs) ++ (Some <$> ys) ++ replicate (cap - (length xs + length ys)) None.
Proof.
  intros Hle. unfold cells. by rewrite fmap_app, length_app, <-app_assoc.
Qed.

Lemma cells_raw (xs : list T) k cap :
  length xs + k ≤ cap →
  cells xs cap
  = (Some <$> xs) ++ replicate k None ++ replicate (cap - (length xs + k)) None.
Proof.
  intros Hle. unfold cells. rewrite <-replicate_add. do 2 f_equal. lia.
Qed.

Lemma Resize_spec (s : state T) this v xs n :
  vector_at s this v xs →
  wp (Vector.Resize this n) s
     (λ _ s',
        ∃ v', vector_at s' this v' (take n xs ++ replicate (n - length xs) value_init)
          ∧ size_ v' = n
          ∧ (n ≤ capacity_ (data_ v) → data_ v' = data_ v)
          ∧ trace s' = trace s ++
              if decide (n < length xs) then Did ∘ Destroy <$> drop n xs
              else (if decide (n ≤ capacity_ (data_ v)) then []
                    else [Did (OpNew n)] ++ relocation xs
                           ++ freed (buffer_ (data_ v)))
                   ++ replicate (n - length xs) (Did ValueInit))
     (λ _, throwing).
Proof.
  intros [Hv Hh]. unfold Vector.Resize, RawMemory.GetAddress.
  apply wp_bind. eapply wp_eq; [by apply load_eq|]. simpl.
  pose proof Hh as (Hsz & Hcap & _).
  apply wp_bind. rewrite Hsz.
  destruct (decide (n < length xs)) as [Hlt|Hge].
  - destruct (buffer_ (data_ v)) as [[b i]|] eqn:Hbuf.
    2:{ destruct (holds_null _ _ _ Hh Hbuf) as (-> & _). simpl in Hlt. lia. }
    destruct (holds_block _ _ _ _ _ Hh Hbuf) as (-> & Hb & _ & _).
    rewrite <-(take_drop n xs), cells_app in Hb
      by (rewrite <-length_app, take_drop; lia).
    assert (Hn : length (take n xs) = n) by (rewrite length_take; lia).
    assert (Hd : length (drop n xs) = length xs - n) by by rewrite length_drop.
    eapply wp_eq.
    { rewrite <-Hd. apply (destroy_n_mid _ _ _ _ _ _ Hb).
      rewrite length_fmap, Hn. done. }
    simpl. apply wp_bind. eapply wp_eq; [by apply load_eq|]. simpl.
    eapply wp_eq; [by eapply store_eq|]. simpl.
    exists (mkVector (data_ v) n). split_and!; [|done|done|done].
    split; simpl; [by lookup_tac|].
    replace (n - length xs) with 0 by lia. simpl. rewrite app_nil_r.
    unfold holds, buffer_is. simpl. rewrite Hbuf, Hn.
    split_and!; [done|lia| |done|].
    + apply length_cells. lia.
    + lookup_tac. rewrite (cells_raw _ (length (drop n xs))) by lia.
      by rewrite Hn.
  - apply wp_bind.
    eapply wp_mono; [by apply (Reserve_spec s this v xs n)| |by intros ? (? & _)].
    intros [] s1 Hres. simpl in Hres.
    assert (∃ v1, vector_at s1 this v1 xs ∧ n ≤ capacity_ (data_ v1)
                  ∧ (n ≤ capacity_ (data_ v) → data_ v1 = data_ v)
                  ∧ trace s1 = trace s ++
                      if decide (n ≤ capacity_ (data_ v)) then []
                      else [Did (OpNew n)] ++ relocation xs
                             ++ freed (buffer_ (data_ v)))
      as (v1 & [Hv1 Hh1] & Hn1 & Hsame & Ht1).
    { destruct (decide (n ≤ capacity_ (data_ v))) as [Hle|Hgt].
      - subst s1. exists v. by rewrite app_nil_r.
      - destruct Hres as [Hat Ht]. eexists. split_and!; [exact Hat| |lia|done].
        simpl. lia. }
    clear Hres. pose proof Hh1 as (Hsz1 & Hcap1 & _).
    apply wp_bind. eapply wp_eq; [by apply load_eq|]. simpl.
    rewrite Hsz1.
    assert (Hpost : ∀ s2 : state T,
      heap s2 = match buffer_ (data_ v1) with
                | Some (b, _) =>
                    <[b := Some (cells (xs ++ replicate (n - length xs) value_init)
                                       (capacity_ (data_ v1)))]> (heap s1)
                | None => heap s1
                end →
      objs s2 = objs s1 →
      trace s2 = trace s1 ++ replicate (n - length xs) (Did ValueInit) →
      wp (v0 <- Vector.load this ;; Vector.store this (mkVector (data_ v0) n)) s2
         (λ _ s', ∃ v', vector_at s' this v'
                          (take n xs ++ replicate (n - length xs) value_init)
            ∧ size_ v' = n
            ∧ (n ≤ capacity_ (data_ v) → data_ v' = data_ v)
            ∧ trace s' = trace s ++
                (if decide (n ≤ capacity_ (data_ v)) then []
                 else [Did (OpNew n)] ++ relocation xs ++ freed (buffer_ (data_ v)))
                ++ replicate (n - length xs) (Did ValueInit))
         (λ _, throwing)).
    { intros s2 Hh2 Ho2 Ht2.
      apply wp_bind. eapply wp_eq; [apply load_eq; by rewrite Ho2|]. simpl.
      eapply wp_eq; [eapply store_eq; by rewrite Ho2|]. simpl.
      exists (mkVector (data_ v1) n). split_and!; [|done|done|].
      2:{ by rewrite Ht2, Ht1, <-app_assoc. }
      split; simpl; [rewrite Ho2; by lookup_tac|].
      rewrite take_ge by lia.
      unfold holds, buffer_is. simpl.
      rewrite length_app, length_replicate.
      split_and!; [lia|lia| |].
      - apply length_cells. rewrite length_app, length_replicate. lia.
      - destruct (buffer_ (data_ v1)) as [[b i]|] eqn:Hbuf1.
        + destruct (holds_block _ _ _ _ _ Hh1 Hbuf1) as (-> & Hb1 & _ & _).
          split; [done|]. rewrite Hh2. by lookup_tac.
        + by destruct (holds_null _ _ _ Hh1 Hbuf1) as (_ & _ & ?). }
    destruct (buffer_ (data_ v1)) as [[b i]|] eqn:Hbuf1.
    + destruct (holds_block _ _ _ _ _ Hh1 Hbuf1) as (-> & Hb1 & _ & _).
      rewrite (cells_raw _ (n - length xs)) in Hb1 by lia.
      eapply wp_mono.
      { unfold uninitialized_value_construct_n.
        apply (uninitialized_value_construct_from_spec b (0 + length xs)
                 (Some <$> xs) [] (n - length xs) _ 0 s1 Hb1);
          [by rewrite length_fmap|done]. }
      * intros _ s2 (Hh2 & Ho2 & Ht2). simpl in *.
        apply Hpost; [|done|done].
        rewrite Hh2, cells_app by (rewrite length_replicate; lia).
        by rewrite length_replicate, fmap_replicate.
      * by intros s2 (? & _).
    + destruct (holds_null _ _ _ Hh1 Hbuf1) as (-> & _ & Hc0).
      replace (n - length (@nil T)) with 0 in * by (simpl; lia).
      eapply wp_eq; [done|]. simpl. apply Hpost; simpl; [done|done|].
      by rewrite app_nil_r.
Qed.

(** ** Emplace *)

Lemma ptr_diff_add (q : ptr) k (s : state T) :
  (q = None → k = 0) → ptr_diff (ptr_add q k) q s = Ret k s.
Proof.
  intros Hq. destruct q as [[b i]|]; simpl.
  - rewrite decide_True by (split; [done|lia]).
    unfold ret. f_equal. lia.
  - by rewrite Hq.
Qed.

Lemma replicate_split {A} (x : A) n p :
  p < n → replicate n x = replicate p x ++ x :: replicate (n - p - 1) x.
Proof.
  intros Hlt. replace n with (p + S (n - p - 1)) at 1 by lia.
  by rewrite replicate_add.
Qed.


Lemma split_last (l : list T) :
  l ≠ [] → ∃ mid z, l = mid ++ [z].
Proof.
  destruct l as [|x l] using rev_ind; [done|]. intros _. by exists l, x.
Qed.




(** ** PopBack and Erase *)

Lemma PopBack_spec (s : state T) this v xs :
  vector_at s this v xs →
  wp (Vector.PopBack this) s
     (λ _ s',
        vector_at s' this (mkVector (data_ v) (length xs - 1))
                  (take (length xs - 1) xs)
        ∧ trace s' = trace s ++ (Did ∘ Destroy <$> drop (length xs - 1) xs))
     (λ _, False).
Proof.
  intros [Hv Hh]. unfold Vector.PopBack, RawMemory.GetAddress.
  pose proof Hh as (Hsz & Hcap & _).
  apply wp_bind. eapply wp_eq; [by apply load_eq|]. simpl. rewrite Hsz.
  destruct (decide (0 < length xs)) as [Hpos|Hzero].
  - destruct (buffer_ (data_ v)) as [[b i]|] eqn:Hbuf.
    2:{ destruct (holds_null _ _ _ Hh Hbuf) as (-> & _). simpl in Hpos. lia. }
    destruct (holds_block _ _ _ _ _ Hh Hbuf) as (-> & Hb & _ & _).
    destruct (split_last xs) as (ys & r & ->).
    { intros ->. simpl in Hpos. lia. }
    rewrite length_app in *. simpl in *.
    replace (length ys + 1 - 1) with (length ys) by lia.
    rewrite take_app_length, drop_app_length.
    apply wp_bind. eapply wp_eq; [by eapply store_eq|]. simpl.
    eapply wp_eq.
    { eapply (destroy_at_mid b _ (Some <$> ys) r); simpl.
      - rewrite Hb. unfold cells. rewrite fmap_app, <-app_assoc. done.
      - by rewrite length_fmap. }
    simpl. split; [|done]. split; simpl; [by lookup_tac|].
    unfold holds, buffer_is. simpl. rewrite Hbuf.
    split_and!; [done|lia| |done|].
    + apply length_cells. lia.
    + lookup_tac. unfold cells. rewrite length_app. simpl.
      do 3 f_equal.
      rewrite (replicate_split None (capacity_ (data_ v) - length ys) 0) by lia.
      simpl. do 2 f_equal. lia.
  - apply wp_ret. assert (xs = []) as -> by (destruct xs; [done|simpl in *; lia]).
    simpl. rewrite app_nil_r. split; [|done].
    destruct v as [d n]. simpl in *. subst n. by split.
Qed.


(** ** Copy construction and destruction *)

Lemma copy_ctor_spec (s : state T) other r ys :
  vector_at s other r ys →
  wp (Vector.copy_ctor other) s
     (λ d s',
        let buf := match ys with [] => None | _ => Some (length (heap s), 0) end in
        let v' := mkVector (mkRawMemory buf (length ys)) (length ys) in
        d = length (objs s)
        ∧ objs s' = objs s ++ [Some v']
        ∧ heap s' = heap s ++ match ys with
                              | [] => []
                              | _ => [Some (cells ys (length ys))]
                              end
        ∧ trace s' = trace s ++ match ys with
                                | [] => []
                                | _ => [Did (OpNew (length ys))]
                                end ++ (Did ∘ CopyCtor <$> ys))
     (λ s', throwing ∧ objs s' = objs s ∧ ∃ h, heap s' = heap s ++ h).
Proof.
  intros [Hr Hh]. unfold Vector.copy_ctor, RawMemory.GetAddress.
  pose proof Hh as (Hsz & Hcap & _).
  apply wp_bind. eapply wp_eq; [by apply load_eq|]. simpl. rewrite Hsz.
  destruct ys as [|y ys].
  - apply wp_bind. eapply wp_eq; [done|]. simpl.
    apply wp_bind. eapply wp_eq; [done|]. simpl.
    unfold Vector.new_object, wp. simpl. by rewrite !app_nil_r.
  - set (ys' := y :: ys) in *.
    destruct (buffer_ (data_ r)) as [[br i]|] eqn:Hbuf.
    2:{ by destruct (holds_null _ _ _ Hh Hbuf) as (? & _). }
    destruct (holds_block _ _ _ _ _ Hh Hbuf) as (-> & Hb & _ & _).
    assert (Hlt : br < length (heap s)) by by eapply lookup_lt_Some.
    apply wp_bind. eapply wp_eq; [by apply RawMemory_new_eq|]. case_throw.
    { split_and!; [by eapply may_throw_throwing|done|].
      exists []. simpl. by rewrite app_nil_r. }
    simpl. apply wp_bind, wp_on_throw.
    eapply wp_mono.
    { apply (uninitialized_copy_from_spec br 0 []
               (replicate (capacity_ (data_ r) - length ys') None)
               (length (heap s)) 0 [] [] [] ys' 0); simpl; [lia| | |done..].
      - rewrite lookup_app_l by done. exact Hb.
      - rewrite list_lookup_middle by done. by rewrite app_nil_r. }
    + intros [] s1 (Hh1 & Ho1 & Ht1). simpl in *.
      unfold Vector.new_object, wp. simpl. rewrite Ho1, Hh1, Ht1.
      split_and!; [done|done| |by rewrite <-app_assoc].
      rewrite insert_app_r_alt by done. rewrite Nat.sub_diag. simpl.
      unfold cells. simpl. by rewrite Nat.sub_diag.
    + intros s1 (Hth & Hh1 & Ho1 & _). simpl in *.
      unfold wp, RawMemory.delete, RawMemory.Deallocate. simpl.
      rewrite Hh1. rewrite list_lookup_insert_eq by (rewrite length_app; simpl; lia).
      simpl. split_and!; [done|done|].
      exists [None]. rewrite list_insert_insert_eq.
      rewrite insert_app_r_alt by done. by rewrite Nat.sub_diag.
Qed.

Lemma destroy_n_0 p (s : state T) : destroy_n p 0 s = Ret () s.
Proof. done. Qed.

Lemma dtor_spec (s : state T) this v xs :
  vector_at s this v xs →
  wp (Vector.dtor this) s
     (λ _ s',
        objs s' = <[this := None]> (objs s)
        ∧ heap s' = match buffer_ (data_ v) with
                    | Some (b, _) => <[b := None]> (heap s)
                    | None => heap s
                    end
        ∧ trace s' = trace s ++ (Did ∘ Destroy <$> xs) ++ freed (buffer_ (data_ v)))
     (λ _, False).
Proof.
  intros [Hv Hh]. unfold Vector.dtor, RawMemory.GetAddress.
  pose proof Hh as (Hsz & Hcap & _).
  apply wp_bind. eapply wp_eq; [by apply load_eq|]. simpl. rewrite Hsz.
  destruct (buffer_ (data_ v)) as [[b i]|] eqn:Hbuf.
  - destruct (holds_block _ _ _ _ _ Hh Hbuf) as (-> & Hb & _ & _).
    apply wp_bind. eapply wp_eq.
    { apply (destroy_n_mid b 0 [] xs _ s Hb). done. }
    simpl. apply wp_bind.
    unfold wp at 1, RawMemory.delete, RawMemory.Deallocate. rewrite Hbuf. simpl.
    erewrite heap_insert_eq by done. simpl.
    unfold wp, Vector.delete_object. simpl. rewrite Hv.
    split_and!; [done| |by rewrite <-app_assoc].
    by rewrite list_insert_insert_eq.
  - destruct (holds_null _ _ _ Hh Hbuf) as (-> & _ & _).
    apply wp_bind. eapply wp_eq; [done|]. simpl.
    apply wp_bind.
    unfold wp at 1, RawMemory.delete, RawMemory.Deallocate. rewrite Hbuf. simpl.
    unfold wp, Vector.delete_object. simpl. rewrite Hv.
    by rewrite app_nil_r.
Qed.

(** ** Copy assignment *)

(** [std::copy] of the first [n] elements of the vector [r] over [n] live
    elements at the start of block [b]. *)
Lemma std_copy_prefix (s : state T) r ys b old post n :
  holds s r ys → n ≤ length ys →
  (∀ j, buffer_ (data_ r) ≠ Some (b, j)) →
  heap s !! b = Some (Some ((Some <$> old) ++ post)) → length old = n →
  wp (std_copy (buffer_ (data_ r)) (ptr_add (buffer_ (data_ r)) n) (Some (b, 0))) s
     (λ _ s',
        heap s' = <[b := Some ((Some <$> take n ys) ++ post)]> (heap s)
        ∧ objs s' = objs s
        ∧ trace s' = trace s ++ (Did ∘ CopyAssign <$> take n ys))
     (λ _, throwing).
Proof.
  intros Hh Hn Hsep Hb Hold. unfold std_copy.
  apply wp_bind. eapply wp_eq.
  { apply ptr_diff_add. intros Hnull.
    destruct (holds_null _ _ _ Hh Hnull) as (-> & _). simpl in Hn. lia. }
  simpl.
  destruct (buffer_ (data_ r)) as [[br i]|] eqn:Hbuf.
  - destruct (holds_block _ _ _ _ _ Hh Hbuf) as (-> & Hbr & _ & _).
    assert (Hne : br ≠ b) by (intros ->; by apply (Hsep 0)).
    assert (Hlen : length (take n ys) = n) by (rewrite length_take; lia).
    rewrite <-Hlen at 1.
    apply (copy_loop_spec br 0 [] (take n ys)
             ((Some <$> drop n ys) ++ replicate (capacity_ (data_ r) - length ys) None)
             b 0 [] old post); simpl; [done|lia| |done..].
    rewrite Hbr. unfold cells. rewrite <-(take_drop n ys) at 1.
    by rewrite fmap_app, <-app_assoc.
  - destruct (holds_null _ _ _ Hh Hbuf) as (-> & _).
    assert (n = 0) as -> by (simpl in Hn; lia).
    destruct old; [|done]. apply wp_ret. simpl in *.
    by rewrite list_insert_id, app_nil_r.
Qed.

Lemma assign_swap_spec (s : state T) this rhs v r xs ys :
  this ≠ rhs → vector_at s this v xs → vector_at s rhs r ys → separate v r →
  capacity_ (data_ v) < length ys →
  wp (Vector.assign this rhs) s
     (λ res s',
        res = this
        ∧ ∃ v', vector_at s' this v' ys ∧ vector_at s' rhs r ys
          ∧ capacity_ (data_ v') = length ys)
     (λ _, throwing).
Proof.
  intros Hne [Hv Hh] [Hr Hhr] Hsep Hgrow. unfold Vector.assign.
  pose proof Hhr as (Hszr & _).
  assert (Hlt : this < length (objs s)) by by eapply lookup_lt_Some.
  assert (Hltr : rhs < length (objs s)) by by eapply lookup_lt_Some.
  rewrite decide_True by done. apply wp_bind.
  apply wp_bind. eapply wp_eq; [by apply load_eq|]. simpl.
  apply wp_bind. eapply wp_eq; [by apply load_eq|]. simpl.
  unfold RawMemory.Capacity. rewrite decide_True by lia.
  destruct ys as [|y ys]; [simpl in Hgrow; lia|].
  set (ys' := y :: ys) in *.
  apply wp_bind.
  eapply wp_mono; [by apply (copy_ctor_spec s rhs r ys')| |by intros ? (? & _)].
  intros d s1 (-> & Ho1 & Hh1 & Ht1). simpl in Ho1, Hh1.
  set (v' := mkVector (mkRawMemory (Some (length (heap s), 0)) (length ys'))
                      (length ys')) in *.
  apply wp_bind. eapply wp_eq.
  { apply (Swap_eq this (length (objs s)) v v'); [lia|..]; rewrite Ho1.
    - by rewrite lookup_app_l.
    - by rewrite list_lookup_middle. }
  simpl.
  eapply wp_mono.
  { apply (dtor_spec _ (length (objs s)) v xs). split; simpl.
    - rewrite Ho1. by lookup_tac.
    - eapply holds_frame; [exact Hh|]. intros b i Hb. simpl.
      rewrite Hh1. apply lookup_app_l.
      destruct (holds_block _ _ _ _ _ Hh Hb) as (_ & Hb' & _).
      by eapply lookup_lt_Some. }
  2:{ done. }
  intros [] s3 (Ho3 & Hh3 & Ht3). simpl in *.
  apply wp_ret. split; [done|]. exists v'.
  assert (Hold : ∀ b c, heap s !! b = Some (Some c) →
                 (∀ i, buffer_ (data_ v) ≠ Some (b, i)) →
                 heap s3 !! b = Some (Some c)).
  { intros b c Hb Hnot. rewrite Hh3.
    assert (b < length (heap s)) by by eapply lookup_lt_Some.
    destruct (buffer_ (data_ v)) as [[bv i]|].
    - rewrite list_lookup_insert_ne by (intros ->; by apply (Hnot i)).
      rewrite Hh1. by rewrite lookup_app_l.
    - rewrite Hh1. by rewrite lookup_app_l. }
  split_and!; [| |done].
  - split; [rewrite Ho3, Ho1; by lookup_tac|].
    unfold holds, buffer_is. simpl. split_and!; [done|done| |done|].
    + rewrite length_app, length_fmap, length_replicate. lia.
    + rewrite Hh3.
      destruct (buffer_ (data_ v)) as [[bv i]|] eqn:Hbuf.
      * destruct (holds_block _ _ _ _ _ Hh Hbuf) as (_ & Hb' & _).
        assert (bv < length (heap s)) by by eapply lookup_lt_Some.
        rewrite Hh1. by lookup_tac.
      * rewrite Hh1. by lookup_tac.
  - split; [rewrite Ho3, Ho1; by lookup_tac|].
    eapply holds_frame; [exact Hhr|]. intros b i Hb.
    destruct (holds_block _ _ _ _ _ Hhr Hb) as (_ & Hb' & _).
    rewrite Hb'. apply Hold; [done|].
    intros j Hj. by apply (Hsep b j i).
Qed.

Lemma assign_inplace_spec (s : state T) this rhs v r xs ys :
  this ≠ rhs → vector_at s this v xs → vector_at s rhs r ys → separate v r →
  length ys ≤ capacity_ (data_ v) →
  wp (Vector.assign this rhs) s
     (λ res s',
        res = this
        ∧ vector_at s' this (mkVector (data_ v) (length ys)) ys
        ∧ vector_at s' rhs r ys
        ∧ trace s' = trace s ++ (Did ∘ CopyAssign <$> take (length xs) ys)
            ++ if decide (length ys < length xs)
               then Did ∘ Destroy <$> drop (length ys) xs
               else Did ∘ CopyCtor <$> drop (length xs) ys)
     (λ _, throwing).
Proof.
  intros Hne [Hv Hh] [Hr Hhr] Hsep Hfit. unfold Vector.assign.
  pose proof Hhr as (Hszr & _). pose proof Hh as (Hsz & Hcap & _).
  rewrite decide_True by done. apply wp_bind.
  apply wp_bind. eapply wp_eq; [by apply load_eq|]. simpl.
  apply wp_bind. eapply wp_eq; [by apply load_eq|]. simpl.
  unfold RawMemory.Capacity, RawMemory.GetAddress.
  rewrite decide_False by lia. rewrite Hsz, Hszr.
  assert (Hfin : ∀ (s2 : state T) es,
    objs s2 = objs s →
    heap s2 = match buffer_ (data_ v) with
              | Some (b, _) =>
                  <[b := Some (cells ys (capacity_ (data_ v)))]> (heap s)
              | None => heap s
              end →
    trace s2 = trace s ++ es →
    wp (v0 <- Vector.load this ;;
        Vector.store this (mkVector (data_ v0) (length ys))) s2
       (λ _ s3,
          wp (ret this) s3
             (λ res s',
                res = this
                ∧ vector_at s' this (mkVector (data_ v) (length ys)) ys
                ∧ vector_at s' rhs r ys
                ∧ trace s' = trace s ++ es)
             (λ _, throwing))
       (λ _, throwing)).
  { intros s2 es Ho2 Hh2 Ht2.
    apply wp_bind. eapply wp_eq; [apply load_eq; by rewrite Ho2|]. simpl.
    eapply wp_eq; [eapply store_eq; by rewrite Ho2|]. simpl.
    apply wp_ret. split_and!; [done| | |done].
    - split; simpl; [rewrite Ho2; by lookup_tac|].
      unfold holds, buffer_is. simpl. split_and!; [done|done| |].
      + by apply length_cells.
      + destruct (buffer_ (data_ v)) as [[b i]|] eqn:Hbuf.
        * destruct (holds_block _ _ _ _ _ Hh Hbuf) as (-> & Hb & _).
          split; [done|]. rewrite Hh2. by lookup_tac.
        * by destruct (holds_null _ _ _ Hh Hbuf) as (_ & _ & ?).
    - split; simpl; [rewrite Ho2; by lookup_tac|].
      eapply holds_frame; [exact Hhr|]. intros b i Hb. simpl. rewrite Hh2.
      destruct (buffer_ (data_ v)) as [[bv j]|] eqn:Hbuf; [|done].
      apply list_lookup_insert_ne. intros ->. by apply (Hsep b j i). }
  apply wp_bind.
  destruct (buffer_ (data_ v)) as [[b i]|] eqn:Hbuf.
  - destruct (holds_block _ _ _ _ _ Hh Hbuf) as (-> & Hb & _ & _).
    assert (Hsep' : ∀ j, buffer_ (data_ r) ≠ Some (b, j))
      by (intros j; by apply (Hsep b 0 j)).
    destruct (decide (length ys < length xs)) as [Hshrink|Hgrow].
    + (* rhs is shorter: assign, then destroy the surplus *)
      apply wp_bind.
      assert (Hb1 : heap s !! b = Some (Some
        ((Some <$> take (length ys) xs)
           ++ ((Some <$> drop (length ys) xs)
                 ++ replicate (capacity_ (data_ v) - length xs) None)))).
      { rewrite Hb. unfold cells. rewrite <-(take_drop (length ys) xs) at 1.
        by rewrite fmap_app, <-app_assoc. }
      eapply wp_mono.
      { eapply (std_copy_prefix s r ys b _ _ (length ys) Hhr); [lia|done|exact Hb1|].
        rewrite length_take. lia. }
      2:{ done. }
      intros [] s1 (Hh1 & Ho1 & Ht1). simpl. rewrite take_ge in Hh1, Ht1 by lia.
      assert (Hd : length (drop (length ys) xs) = length xs - length ys)
        by by rewrite length_drop.
      eapply wp_eq.
      { rewrite <-Hd. eapply (destroy_n_mid b _ (Some <$> ys)).
        - rewrite Hh1. by lookup_tac.
        - by rewrite length_fmap. }
      simpl. apply Hfin; simpl; [done| |].
      * rewrite Hh1, list_insert_insert_eq, Hd. do 2 f_equal.
        unfold cells. f_equal. rewrite <-replicate_add. f_equal. lia.
      * rewrite Ht1, <-app_assoc. by rewrite (take_ge ys) by lia.
    + (* rhs is not shorter: assign, then construct the surplus *)
      apply wp_bind.
      eapply wp_mono.
      { eapply (std_copy_prefix s r ys b xs _ (length xs) Hhr); [lia|done|exact Hb|done]. }
      2:{ done. }
      intros [] s1 (Hh1 & Ho1 & Ht1). simpl.
      assert (Hd : length (drop (length xs) ys) = length ys - length xs)
        by by rewrite length_drop.
      assert (Htk : length (take (length xs) ys) = length xs)
        by (rewrite length_take; lia).
      destruct (buffer_ (data_ r)) as [[br j]|] eqn:Hbufr.
      * destruct (holds_block _ _ _ _ _ Hhr Hbufr) as (-> & Hbr & _ & _).
        assert (Hneb : br ≠ b) by (intros ->; by apply (Hsep' 0)).
        eapply wp_mono.
        { unfold uninitialized_copy_n. rewrite <-Hd.
          apply (uninitialized_copy_from_spec br _ (Some <$> take (length xs) ys)
                   (replicate (capacity_ (data_ r) - length ys) None)
                   b _ (Some <$> take (length xs) ys)
                   (replicate (capacity_ (data_ v) - length ys) None)
                   [] (drop (length xs) ys) 0); simpl; [done| | | | |done].
          - rewrite Hh1. rewrite list_lookup_insert_ne by done.
            rewrite Hbr. unfold cells.
            rewrite <-(take_drop (length xs) ys) at 1.
            by rewrite fmap_app, <-app_assoc.
          - rewrite Hh1. lookup_tac. rewrite <-replicate_add, Hd.
            do 4 f_equal. lia.
          - by rewrite length_fmap, Htk.
          - by rewrite length_fmap, Htk. }
        -- intros [] s2 (Hh2 & Ho2 & Ht2). simpl in *.
           apply Hfin; [by rewrite Ho2| |].
           ++ rewrite Hh2, Hh1, list_insert_insert_eq. do 2 f_equal.
              unfold cells. rewrite app_assoc, <-fmap_app.
              by rewrite take_drop.
           ++ by rewrite Ht2, Ht1, <-app_assoc.
        -- by intros s2 (? & _).
      * destruct (holds_null _ _ _ Hhr Hbufr) as (-> & _).
        assert (xs = []) as -> by (destruct xs; [done|simpl in *; lia]).
        simpl in *. eapply wp_eq; [done|]. simpl.
        apply Hfin; [done|by rewrite Hh1|by rewrite Ht1].
  - destruct (holds_null _ _ _ Hh Hbuf) as (-> & _ & Hc0).
    assert (ys = []) as -> by (destruct ys; [done|simpl in *; lia]).
    rewrite !decide_False by (simpl; lia).
    apply wp_bind. unfold std_copy. apply wp_bind.
    eapply wp_eq; [by apply ptr_diff_add|]. simpl.
    apply wp_ret. eapply wp_eq; [done|]. simpl.
    apply Hfin; [done|done|]. simpl. by rewrite app_nil_r.
Qed.


(** ** Appending *)





(** ** The strong guarantee of the reallocating paths *)



(** ** Construction *)



(** ** Reading the elements, the invariant, returning *)


Lemma holds_invariant (s : state T) v xs : holds s v xs → invariant s v.
Proof.
  intros (Hsz & Hcap & Hb). split; [lia|].
  exists (cells xs (capacity_ (data_ v))). split_and!; [done| |].
  - intros i Hi. unfold cells.
    destruct (lookup_lt_is_Some_2 xs i) as [x Hx]; [lia|].
    exists x. rewrite lookup_app_l by (rewrite length_fmap; lia).
    by rewrite list_lookup_fmap, Hx.
  - intros i [Hlo Hhi]. unfold cells.
    rewrite lookup_app_r by (rewrite length_fmap; lia).
    apply lookup_replicate_2. rewrite length_fmap. lia.
Qed.

Lemma wp_returns {A} (m : M A) (s : state T) Q :
  ¬ throwing → wp m s Q (λ _, throwing) → ∃ a s', m s = Ret a s' ∧ Q a s'.
Proof.
  unfold wp. intros Hno Hwp. destruct (m s) as [a s'|s'|]; [|done..].
  by exists a, s'.
Qed.

(** ** The invariant on normal return *)





End MethodSpecs.

Lemma sturdy_never_throws : ¬ @throwing nat sturdy.
Proof. by intros (tr & o & Hthrow). Qed.

(** * The properties of the container *)

Section ListFacts.
Context {A : Type}.
Implicit Types (xs : list A) (x : A).






End ListFacts.

(** Goals about a concrete state. *)
Ltac concrete := repeat split; try reflexivity; try (simpl; lia).

Section Claims.
Context {T : Type} `{!Element T}.
Local Abbreviation M := (M T).



(** C2, as amended. A move construction from [x] leaves [x] empty, of
    size 0, and the new vector holds what [x] held, in the buffer [x] had.
    A move assignment from [x] to a distinct vector [d] exchanges the two:
    [d] holds what [x] held and [x] holds what [d] held, so the size of [x]
    afterwards is the former size of [d]. Neither operation can fail, and
    neither performs any operation on an element: the trace is unchanged. *)
Theorem move_semantics (s : state T) x vx xs :
  vector_at s x vx xs →
  wp (Vector.move_ctor x) s
     (λ d s',
        vector_at s' d vx xs
        ∧ (∃ v0, vector_at s' x v0 [] ∧ size_ v0 = 0)
        ∧ trace s' = trace s)
     (λ _, False)
  ∧ ∀ d vd ds,
      d ≠ x → vector_at s d vd ds →
      wp (Vector.assign_rvalue d x) s
         (λ _ s',
            vector_at s' d vx xs
            ∧ vector_at s' x vd ds
            ∧ trace s' = trace s)
         (λ _, False).
Proof.
  intros Hx. split.
  - eapply wp_mono; [by apply (move_ctor_spec s x vx xs)| |done].
    intros d s' (Hd & Hx' & _ & _ & Ht). split_and!; [done| |done].
    by eexists.
  - intros d vd ds Hne Hd.
    eapply wp_mono; [by apply (assign_rvalue_spec s d vd ds x vx xs)| |done].
    by intros r s' (Hd' & Hx' & _ & _ & Ht).
Qed.

(** C10. Self-assignment, by copy or by move, changes nothing: the
    comparison of [this] with the address of [rhs] skips the body, and the
    state afterwards is the state before. *)
Theorem self_assignment (s : state T) (this : obj) :
  Vector.assign this this s = Ret this s
  ∧ Vector.assign_rvalue this this s = Ret this s.
Proof.
  unfold Vector.assign, Vector.assign_rvalue.
  by rewrite !decide_False by (intros H; by apply H).
Qed.



(** C6. For vectors at distinct addresses owning different blocks, copy
    assignment [a = b] has defined behaviour and throws only if the
    allocation or a copy throws. When it returns, [a] holds the elements
    of [b] and has the size of [b], and [b] is unchanged. When the size of
    [b] is at most the capacity of [a], the buffer and the capacity of [a]
    are the ones it had, and the only operations are copy assignments over
    the common prefix followed by the destruction of the surplus of [a] or
    the copy construction of the surplus of [b]: nothing is allocated. *)
Theorem copy_assignment (s : state T) a b va vb xs ys :
  a ≠ b → vector_at s a va xs → vector_at s b vb ys → separate va vb →
  wp (Vector.assign a b) s
     (λ res s',
        res = a
        ∧ ∃ va', vector_at s' a va' ys ∧ vector_at s' b vb ys
          ∧ size_ va' = size_ vb
          ∧ (size_ vb ≤ capacity_ (data_ va) →
             data_ va' = data_ va
             ∧ trace s' = trace s ++ (Did ∘ CopyAssign <$> take (length xs) ys)
                 ++ if decide (length ys < length xs)
                    then Did ∘ Destroy <$> drop (length ys) xs
                    else Did ∘ CopyCtor <$> drop (length xs) ys))
     (λ _, throwing).
Proof.
  intros Hne Ha Hb Hsep.
  pose proof Hb as [_ (Hszb & _)].
  destruct (decide (capacity_ (data_ va) < length ys)) as [Hgrow|Hfit].
  - eapply wp_mono; [by apply (assign_swap_spec s a b va vb xs ys)| |done].
    intros res s' (-> & va' & Ha' & Hb' & Hc). split; [done|].
    exists va'. pose proof Ha' as [_ (Hsza' & _)].
    split_and!; [done|done|lia|lia].
  - eapply wp_mono;
      [apply (assign_inplace_spec s a b va vb xs ys); [done..|lia]| |done].
    intros res s' (-> & Ha' & Hb' & Ht). split; [done|].
    eexists. split_and!; [exact Ha'|done|simpl; lia|done].
Qed.


End Claims.



(** The claim of C2 that a move assignment leaves its source empty fails:
    moving the vector [1, 2] at address 0 into the vector [7] at address 1
    leaves the former with size 1, holding [7]. *)
Lemma move_assign_source_not_empty :
  vector_at two_vectors 0 (mkVector (mkRawMemory (Some (0, 0)) 2) 2) [1; 2]
  ∧ vector_at two_vectors 1 (mkVector (mkRawMemory (Some (1, 0)) 1) 1) [7]
  ∧ ∃ s', (Vector.assign_rvalue 1 0 ;; Vector.Size 0) two_vectors = Ret 1 s'
          ∧ vector_at s' 0 (mkVector (mkRawMemory (Some (1, 0)) 1) 1) [7].
Proof.
  split; [concrete|]. split; [concrete|].
  eexists. split; [vm_compute; reflexivity|concrete].
Qed.

Lemma move_semantics_witness :
  vector_at two_vectors 0 (mkVector (mkRawMemory (Some (0, 0)) 2) 2) [1; 2]
  ∧ wp (Vector.move_ctor 0) two_vectors
       (λ d s',
          vector_at s' d (mkVector (mkRawMemory (Some (0, 0)) 2) 2) [1; 2]
          ∧ (∃ v0, vector_at s' 0 v0 [] ∧ size_ v0 = 0)
          ∧ trace s' = trace two_vectors)
       (λ _, False)
  ∧ ∀ d vd ds,
      d ≠ 0 → vector_at two_vectors d vd ds →
      wp (Vector.assign_rvalue d 0) two_vectors
         (λ _ s',
            vector_at s' d (mkVector (mkRawMemory (Some (0, 0)) 2) 2) [1; 2]
            ∧ vector_at s' 0 vd ds
            ∧ trace s' = trace two_vectors)
         (λ _, False).
Proof.
  split; [concrete|].
  apply (move_semantics two_vectors 0
           (mkVector (mkRawMemory (Some (0, 0)) 2) 2) [1; 2]).
  concrete.
Defined.


(** The scenario: [Reserve(10)] on an empty vector. *)
Example Reserve_10_on_empty :
  @Vector.Reserve nat sturdy 0 10 empty_vector
  = Ret () {| heap := [Some (replicate 10 None)];
              objs := [Some (mkVector (mkRawMemory (Some (0, 0)) 10) 0)];
              trace := [Did (OpNew 10)] |}.
Proof. vm_compute. reflexivity. Qed.


Lemma copy_assignment_witness :
  0 ≠ 1
  ∧ vector_at two_vectors 0 (mkVector (mkRawMemory (Some (0, 0)) 2) 2) [1; 2]
  ∧ vector_at two_vectors 1 (mkVector (mkRawMemory (Some (1, 0)) 1) 1) [7]
  ∧ separate (mkVector (mkRawMemory (Some (0, 0)) 2) 2)
             (mkVector (mkRawMemory (Some (1, 0)) 1) 1)
  ∧ wp (@Vector.assign nat sturdy 0 1) two_vectors
       (λ res s',
          res = 0
          ∧ ∃ va', vector_at s' 0 va' [7]
            ∧ vector_at s' 1 (mkVector (mkRawMemory (Some (1, 0)) 1) 1) [7]
            ∧ size_ va' = 1
            ∧ (1 ≤ 2 →
               data_ va' = mkRawMemory (Some (0, 0)) 2
               ∧ trace s' = trace two_vectors
                   ++ (Did ∘ CopyAssign <$> take 2 [7])
                   ++ if decide (1 < 2)
                      then Did ∘ Destroy <$> drop 1 [1; 2]
                      else Did ∘ CopyCtor <$> drop 2 [7]))
       (λ _, @throwing nat sturdy).
Proof.
  assert (Hsep : separate (mkVector (mkRawMemory (Some (0, 0)) 2) 2)
                          (mkVector (mkRawMemory (Some (1, 0)) 1) 1)).
  { intros b i j Ha Hb. simpl in *. congruence. }
  split; [lia|]. split; [concrete|]. split; [concrete|]. split; [exact Hsep|].
  apply (@copy_assignment nat sturdy two_vectors 0 1
           (mkVector (mkRawMemory (Some (0, 0)) 2) 2)
           (mkVector (mkRawMemory (Some (1, 0)) 1) 1) [1; 2] [7]);
    [lia|concrete|concrete|exact Hsep].
Defined.


(** The capacities taken by five [PushBack] from empty: 1, 2, 4, 4, 8. *)
Example PushBack_capacities :
  (λ l, match (@PushBack_each nat sturdy 0 l ;; Vector.Capacity 0) empty_vector with
        | Ret c _ => Some c
        | _ => None
        end)
    <$> [[Lvalue 1];
         [Lvalue 1; Lvalue 2];
         [Lvalue 1; Lvalue 2; Lvalue 3];
         [Lvalue 1; Lvalue 2; Lvalue 3; Lvalue 4];
         [Lvalue 1; Lvalue 2; Lvalue 3; Lvalue 4; Lvalue 5]]
  = [Some 1; Some 2; Some 4; Some 4; Some 8].
Proof. vm_compute. reflexivity. Qed.

(** The scenario: [PushBack(1)], [PushBack(2)], [Insert] of 5 at index 1,
    [Erase] at index 0, from an empty vector; the vector holds [5, 2]. *)
Example scenario_push_insert_erase :
  ∃ it s',
    (Vector.PushBack (Element0 := sturdy) 0 (Lvalue 1) ;;
     Vector.PushBack (Element0 := sturdy) 0 (Lvalue 2) ;;
     b <- Vector.begin 0 ;;
     Vector.Insert (Element0 := sturdy) 0 (ptr_add b 1) 5 ;;
     b <- Vector.begin 0 ;;
     Vector.Erase (Element0 := sturdy) 0 b) empty_vector = Ret it s'
    ∧ vector_at s' 0 (mkVector (mkRawMemory (Some (2, 0)) 4) 2) [5; 2].
Proof. eexists _, _. split; [vm_compute; reflexivity|concrete]. Qed.

(** C1. The code breaks the claim. The vector [1, 2] at address 0 is full;
    the element type throws when a copy of the value [2] is constructed.
    [Insert] of 5 at index 1 reallocates, constructs the new element,
    relocates the prefix [1] and destroys its original, then fails on the
    suffix [2]. The new element is destroyed and the exception propagates,
    the size and the capacity are what they were, but slot 0 of the buffer
    no longer holds an element: the vector holds no sequence of elements
    at all. *)
Theorem Emplace_failed_relocation_loses_prefix :
  let v := mkVector (mkRawMemory (Some (0, 0)) 2) 2 in
  vector_at two_vectors 0 v [1; 2]
  ∧ ∃ s',
      @Vector.Insert nat fragile 0 (Some (0, 1)) 5 two_vectors = Throw s'
      ∧ objs s' !! 0 = Some (Some v)
      ∧ heap s' !! 0 = Some (Some [None; Some 2])
      ∧ trace s' = [Did (OpNew 4); Did (CopyCtor 5); Did (CopyCtor 1);
                    Did (Destroy 1); Threw (CopyCtor 2); Did (Destroy 5);
                    Did (OpDelete 2)]
      ∧ ∀ xs, ¬ holds s' v xs.
Proof.
  split; [concrete|]. eexists. split; [vm_compute; reflexivity|].
  split_and!; [done..|].
  intros xs (Hsz & _ & _ & _ & Hb). simpl in *.
  destruct xs as [|x xs]; [done|]. by inversion Hb.
Qed.

(** C9. The code breaks the claim, by the defect of C1: the invariant
    holds of the vector [1, 2] at address 0 before [Insert] of 5 at index
    1, and does not hold of it once the relocation of the suffix has
    thrown, as slot 0, below the size, is raw. *)
Theorem Emplace_failed_relocation_breaks_invariant :
  let v := mkVector (mkRawMemory (Some (0, 0)) 2) 2 in
  objs two_vectors !! 0 = Some (Some v)
  ∧ invariant two_vectors v
  ∧ ∃ s',
      @Vector.Insert nat fragile 0 (Some (0, 1)) 5 two_vectors = Throw s'
      ∧ objs s' !! 0 = Some (Some v)
      ∧ ¬ invariant s' v.
Proof.
  split; [done|]. split.
  { apply (holds_invariant two_vectors _ [1; 2]). concrete. }
  eexists. split; [vm_compute; reflexivity|]. split; [done|].
  intros (_ & blk & (_ & _ & Hb) & Hlive & _). simpl in *.
  destruct (Hlive 0) as [x Hx]; [lia|].
  inversion Hb; subst blk. done.
Qed.

(** A second way in which [Emplace] leaves the invariant behind: the
    vector [1, 2] of capacity 3 has room, and the element type throws when
    the value [1] is move-assigned. [Insert] of 5 at index 0 move-constructs
    the last element into slot 2 and then fails in [std::move_backward]:
    the size is still 2 and slot 2, above the size, holds a live element
    that nothing will destroy. *)
Example Emplace_failed_shift_leaves_live_slot :
  let v := mkVector (mkRawMemory (Some (0, 0)) 3) 2 in
  vector_at roomy_vector 0 v [1; 2]
  ∧ ∃ s',
      @Vector.Insert nat brittle 0 (Some (0, 0)) 5 roomy_vector = Throw s'
      ∧ objs s' !! 0 = Some (Some v)
      ∧ heap s' !! 0 = Some (Some [Some 1; Some 2; Some 2])
      ∧ ¬ invariant s' v.
Proof.
  split; [concrete|]. eexists. split; [vm_compute; reflexivity|].
  split_and!; [done..|].
  intros (_ & blk & (_ & _ & Hb) & _ & Hraw). simpl in *.
  inversion Hb; subst blk. specialize (Hraw 2). simpl in Hraw.
  by assert (Some (Some 2) = Some (@None nat)) by (apply Hraw; lia).
Qed.

(** * Further properties of the two classes *)

Section Further.
Context {T : Type} `{!Element T}.
Local Abbreviation M := (M T).

Lemma wp_both {A} (m : M A) (s : state T) Q Q' E E' :
  wp m s Q E → wp m s Q' E' →
  wp m s (λ a s', Q a s' ∧ Q' a s') (λ s', E s' ∧ E' s').
Proof. unfold wp. by destruct (m s). Qed.


(** [PopBack] on an empty vector does nothing at all: the state is the one
    before the call. On a vector holding [ys ++ [x]] it destroys [x] and
    no other element, and the vector holds [ys] in the buffer, and at the
    capacity, it had. It cannot throw. *)
Theorem PopBack_pops (s : state T) this v xs :
  vector_at s this v xs →
  wp (Vector.PopBack this) s
     (λ _ s',
        (xs = [] → s' = s)
        ∧ (∀ ys x, xs = ys ++ [x] →
             vector_at s' this (mkVector (data_ v) (length ys)) ys
             ∧ trace s' = trace s ++ [Did (Destroy x)]))
     (λ _, False).
Proof.
  intros Hat. destruct (decide (xs = [])) as [->|Hne].
  - destruct Hat as [Hv (Hsz & _)]. simpl in Hsz.
    eapply wp_eq.
    { unfold Vector.PopBack. erewrite bind_Ret; last by apply load_eq.
      rewrite decide_False by lia. done. }
    simpl. split; [done|]. intros ys x Hxs. by destruct ys.
  - eapply wp_mono; [by apply (PopBack_spec s this v xs)| |done].
    intros [] s' (Hat' & Htr). simpl. split; [done|].
    intros ys x ->. rewrite length_app in Hat', Htr. simpl in Hat', Htr.
    replace (length ys + 1 - 1) with (length ys) in Hat', Htr by lia.
    rewrite take_app_length in Hat'. rewrite drop_app_length in Htr.
    done.
Qed.



(** [Swap] exchanges two distinct vectors: each holds what the other held,
    in the buffer of the other, and no element is constructed, assigned or
    destroyed, nothing is allocated or released, and no exception can
    leave. Swapping twice gives back the state before the first; swapping
    a vector with itself leaves the state as it was. *)
Theorem Swap_exchanges (s : state T) a b va vb xs ys :
  vector_at s a va xs → vector_at s b vb ys →
  (a ≠ b →
   wp (Vector.Swap a b) s
      (λ _ s',
         vector_at s' a vb ys ∧ vector_at s' b va xs
         ∧ heap s' = heap s ∧ trace s' = trace s)
      (λ _, False)
   ∧ (Vector.Swap a b ;; Vector.Swap a b) s = Ret () s)
  ∧ Vector.Swap a a s = Ret () s.
Proof.
  intros [Ha Hha] [Hb Hhb]. split.
  - intros Hne. split.
    + eapply wp_eq; [by apply (Swap_eq a b va vb)|]. simpl.
      split_and!; [|..|done|done].
      * split; [lookup_tac|by eapply holds_same_heap].
      * split; [lookup_tac|by eapply holds_same_heap].
    + erewrite bind_Ret; last by apply (Swap_eq a b va vb).
      erewrite Swap_eq; [|done|lookup_tac..]. simpl.
      rewrite heap_insert_twice by done.
      rewrite (list_insert_id _ b) by lookup_tac.
      rewrite list_insert_id by done.
      by destruct s.
  - destruct va as [[buf cap] n]. unfold Vector.Swap.
    rewrite (bind_Ret _ _ _ _ _ (load_eq _ _ _ Ha)).
    rewrite (bind_Ret _ _ _ _ _ (load_eq _ _ _ Ha)). simpl.
    rewrite (bind_Ret _ _ _ _ _ (store_eq _ _ _ _ Ha)).
    rewrite list_insert_id by done.
    assert (Hs : mkState (heap s) (objs s) (trace s) = s) by by destruct s.
    rewrite Hs.
    rewrite (bind_Ret _ _ _ _ _ (load_eq _ _ _ Ha)). simpl.
    rewrite (bind_Ret _ _ _ _ _ (store_eq _ _ _ _ Ha)).
    rewrite list_insert_id, Hs by done.
    rewrite (bind_Ret _ _ _ _ _ (load_eq _ _ _ Ha)).
    rewrite (bind_Ret _ _ _ _ _ (load_eq _ _ _ Ha)). simpl.
    rewrite (bind_Ret _ _ _ _ _ (store_eq _ _ _ _ Ha)).
    rewrite list_insert_id, Hs by done.
    rewrite (bind_Ret _ _ _ _ _ (load_eq _ _ _ Ha)). simpl.
    rewrite (store_eq _ _ _ _ Ha).
    by rewrite list_insert_id, Hs by done.
Qed.







(** [Resize] never gives capacity back: a size [n] within the capacity
    leaves the buffer and the capacity what they were, and [Resize(0)]
    destroys every element, in order, and leaves an empty vector of the
    former capacity without releasing anything. *)
Theorem Resize_keeps_capacity (s : state T) this v xs n :
  vector_at s this v xs → n ≤ capacity_ (data_ v) →
  wp (Vector.Resize this n) s
     (λ _ s',
        ∃ ys, vector_at s' this (mkVector (data_ v) n) ys
          ∧ (n = 0 →
             ys = [] ∧ trace s' = trace s ++ (Did ∘ Destroy <$> xs)))
     (λ _, throwing).
Proof.
  intros Hat Hn.
  eapply wp_mono; [by apply (Resize_spec s this v xs n)| |done].
  intros [] s' (v' & Hat' & Hsz & Hsame & Htr). simpl.
  eexists. split.
  - specialize (Hsame Hn). destruct v' as [d' n']. simpl in *.
    subst n' d'. exact Hat'.
  - intros ->. simpl. split; [done|]. rewrite Htr.
    by destruct xs as [|x xs]; simpl.
Qed.

(** ** What a failed operation leaves behind *)





Lemma copy_assignment_reallocating_strong (s : state T) this rhs v r xs ys :
  this ≠ rhs → vector_at s this v xs → vector_at s rhs r ys → separate v r →
  capacity_ (data_ v) < length ys →
  wp (Vector.assign this rhs) s
     (λ _ _, True)
     (λ s', throwing ∧ vector_at s' this v xs ∧ vector_at s' rhs r ys).
Proof.
  intros Hne [Hv Hh] [Hr Hhr] Hsep Hgrow. unfold Vector.assign.
  pose proof Hhr as (Hszr & _).
  assert (Hlt : this < length (objs s)) by by eapply lookup_lt_Some.
  rewrite decide_True by done. apply wp_bind.
  apply wp_bind. eapply wp_eq; [by apply load_eq|]. simpl.
  apply wp_bind. eapply wp_eq; [by apply load_eq|]. simpl.
  unfold RawMemory.Capacity. rewrite decide_True by lia.
  apply wp_bind.
  eapply wp_mono; [by apply (copy_ctor_spec s rhs r ys)| |].
  2:{ intros s' (Hth & Ho & h & Hh'). split; [done|].
      assert (Hfr : ∀ w zs, holds s w zs → holds s' w zs).
      { intros w zs Hw. eapply holds_frame; [exact Hw|]. intros b i Hb.
        destruct (holds_block _ _ _ _ _ Hw Hb) as (_ & Hb' & _).
        rewrite Hh'. apply lookup_app_l. by eapply lookup_lt_Some. }
      split; (split; [by rewrite Ho|by apply Hfr]). }
  intros d s1 (-> & Ho1 & Hh1 & Ht1). simpl in Ho1, Hh1.
  apply wp_bind. eapply wp_eq.
  { eapply (Swap_eq this (length (objs s)) v); [lia|..]; rewrite Ho1.
    - by rewrite lookup_app_l.
    - by rewrite list_lookup_middle. }
  simpl.
  eapply wp_mono.
  { apply (dtor_spec _ (length (objs s)) v xs). split; simpl.
    - rewrite Ho1. by lookup_tac.
    - eapply holds_frame; [exact Hh|]. intros b i Hb. simpl.
      rewrite Hh1. apply lookup_app_l.
      destruct (holds_block _ _ _ _ _ Hh Hb) as (_ & Hb' & _).
      by eapply lookup_lt_Some. }
  - intros [] s3 _. by apply wp_ret.
  - done.
Qed.



Lemma copy_loop_throw bs j spre xs spost b k pre ys post (s : state T) :
  bs ≠ b → length ys = length xs →
  heap s !! bs = Some (Some (spre ++ (Some <$> xs) ++ spost)) →
  heap s !! b = Some (Some (pre ++ (Some <$> ys) ++ post)) →
  j = length spre → k = length pre →
  wp (copy_loop (Some (bs, j)) (Some (b, k)) (length xs)) s
     (λ _ _, True)
     (λ s',
        throwing ∧ objs s' = objs s
        ∧ ∃ zs, length zs = length xs
          ∧ heap s' = <[b := Some (pre ++ (Some <$> zs) ++ post)]> (heap s)).
Proof.
  revert ys j spre k pre s.
  induction xs as [|x xs IH]; intros ys j spre k pre s Hne Hlen Hs Hb Hj Hk;
    [done|].
  destruct ys as [|y ys]; [done|]. simpl in *. apply wp_bind.
  eapply wp_eq; [by apply (copy_assign_mid _ _ _ _ _ _ _ _ _ _ _ Hs Hj Hb Hk)|].
  destruct (may_throw (trace s) (CopyAssign x)) eqn:Hthrow.
  - split_and!; [by eapply may_throw_throwing|done|].
    exists (y :: ys). split; [simpl; lia|]. simpl. by rewrite list_insert_id.
  - eapply wp_mono.
    { apply (IH ys (j + 1) (spre ++ [Some x]) (k + 1) (pre ++ [Some x]));
        simpl; [done|lia| | | |].
      - rewrite list_lookup_insert_ne by done. by rewrite <-app_assoc.
      - rewrite <-app_assoc. by eapply heap_insert_eq.
      - rewrite length_app. simpl. lia.
      - rewrite length_app. simpl. lia. }
    + done.
    + intros s' (Hth & Ho & zs & Hzs & Hh). simpl in *.
      split_and!; [done|done|]. exists (x :: zs). split; [simpl; lia|].
      by rewrite Hh, list_insert_insert_eq, <-app_assoc.
Qed.

Lemma std_copy_prefix_throw (s : state T) r ys b old post n :
  holds s r ys → n ≤ length ys →
  (∀ j, buffer_ (data_ r) ≠ Some (b, j)) →
  heap s !! b = Some (Some ((Some <$> old) ++ post)) → length old = n →
  wp (std_copy (buffer_ (data_ r)) (ptr_add (buffer_ (data_ r)) n) (Some (b, 0))) s
     (λ _ _, True)
     (λ s',
        throwing ∧ objs s' = objs s
        ∧ ∃ zs, length zs = n
          ∧ heap s' = <[b := Some ((Some <$> zs) ++ post)]> (heap s)).
Proof.
  intros Hh Hn Hsep Hb Hold. unfold std_copy.
  apply wp_bind. eapply wp_eq.
  { apply ptr_diff_add. intros Hnull.
    destruct (holds_null _ _ _ Hh Hnull) as (-> & _). simpl in Hn. lia. }
  simpl.
  destruct (buffer_ (data_ r)) as [[br i]|] eqn:Hbuf.
  - destruct (holds_block _ _ _ _ _ Hh Hbuf) as (-> & Hbr & _ & _).
    assert (Hne : br ≠ b) by (intros ->; by apply (Hsep 0)).
    assert (Hlen : length (take n ys) = n) by (rewrite length_take; lia).
    rewrite <-Hlen at 1.
    eapply wp_mono.
    { apply (copy_loop_throw br 0 [] (take n ys)
               ((Some <$> drop n ys) ++ replicate (capacity_ (data_ r) - length ys) None)
               b 0 [] old post); simpl; [done|lia| |done..].
      rewrite Hbr. unfold cells. rewrite <-(take_drop n ys) at 1.
      by rewrite fmap_app, <-app_assoc. }
    + done.
    + intros s' (Hth & Ho & zs & Hzs & Hh'). simpl in *.
      split_and!; [done|done|]. exists zs. split; [lia|done].
  - destruct (holds_null _ _ _ Hh Hbuf) as (-> & _).
    assert (n = 0) as -> by (simpl in Hn; lia). by apply wp_ret.
Qed.

Lemma copy_assignment_in_place_failure (s : state T) this rhs v r xs ys :
  this ≠ rhs → vector_at s this v xs → vector_at s rhs r ys → separate v r →
  length ys ≤ capacity_ (data_ v) →
  wp (Vector.assign this rhs) s
     (λ _ _, True)
     (λ s',
        throwing ∧ vector_at s' rhs r ys
        ∧ ∃ zs, vector_at s' this v zs ∧ length zs = length xs).
Proof.
  intros Hne [Hv Hh] [Hr Hhr] Hsep Hfit. unfold Vector.assign.
  pose proof Hhr as (Hszr & _). pose proof Hh as (Hsz & Hcap & _).
  rewrite decide_True by done. apply wp_bind.
  apply wp_bind. eapply wp_eq; [by apply load_eq|]. simpl.
  apply wp_bind. eapply wp_eq; [by apply load_eq|]. simpl.
  unfold RawMemory.Capacity, RawMemory.GetAddress.
  rewrite decide_False by lia. rewrite Hsz, Hszr.
  assert (Hfin : ∀ (s2 : state T),
    objs s2 = objs s →
    wp (v0 <- Vector.load this ;;
        Vector.store this (mkVector (data_ v0) (length ys))) s2
       (λ _ s3, wp (ret this) s3 (λ _ _, True)
          (λ s',
             throwing ∧ vector_at s' rhs r ys
             ∧ ∃ zs, vector_at s' this v zs ∧ length zs = length xs))
       (λ s',
          throwing ∧ vector_at s' rhs r ys
          ∧ ∃ zs, vector_at s' this v zs ∧ length zs = length xs)).
  { intros s2 Ho2.
    apply wp_bind. eapply wp_eq; [apply load_eq; by rewrite Ho2|]. simpl.
    eapply wp_eq; [eapply store_eq; by rewrite Ho2|]. simpl. by apply wp_ret. }
  apply wp_bind.
  destruct (buffer_ (data_ v)) as [[b i]|] eqn:Hbuf.
  - destruct (holds_block _ _ _ _ _ Hh Hbuf) as (-> & Hb & _ & _).
    assert (Hsep' : ∀ j, buffer_ (data_ r) ≠ Some (b, j))
      by (intros j; by apply (Hsep b 0 j)).
    (* what is left when the block of [this] holds [zs] and nothing else changed *)
    assert (Hleft : ∀ (s' : state T) zs,
      objs s' = objs s → length zs = length xs →
      heap s' = <[b := Some (cells zs (capacity_ (data_ v)))]> (heap s) →
      vector_at s' rhs r ys
      ∧ ∃ zs, vector_at s' this v zs ∧ length zs = length xs).
    { intros s' zs Ho' Hzs Hh'. split.
      - split; [by rewrite Ho'|].
        eapply holds_frame; [exact Hhr|]. intros br j Hbr. rewrite Hh'.
        apply list_lookup_insert_ne. intros ->. by apply (Hsep' j).
      - exists zs. split; [|done]. split; [by rewrite Ho'|].
        unfold holds, buffer_is. rewrite Hbuf, Hzs.
        split_and!; [done|done| |done|].
        + apply length_cells. lia.
        + rewrite Hh'. by lookup_tac. }
    destruct (decide (length ys < length xs)) as [Hshrink|Hgrow].
    + apply wp_bind.
      assert (Hb1 : heap s !! b = Some (Some
        ((Some <$> take (length ys) xs)
           ++ ((Some <$> drop (length ys) xs)
                 ++ replicate (capacity_ (data_ v) - length xs) None)))).
      { rewrite Hb. unfold cells. rewrite <-(take_drop (length ys) xs) at 1.
        by rewrite fmap_app, <-app_assoc. }
      assert (Htk : length (take (length ys) xs) = length ys)
        by (rewrite length_take; lia).
      eapply wp_mono.
      { apply (wp_both _ _ _ _ _ _
                 (std_copy_prefix s r ys b _ _ (length ys) Hhr
                    ltac:(lia) Hsep' Hb1 Htk)
                 (std_copy_prefix_throw s r ys b _ _ (length ys) Hhr
                    ltac:(lia) Hsep' Hb1 Htk)). }
      * intros [] s1 [(Hh1 & Ho1 & Ht1) _]. simpl.
        rewrite take_ge in Hh1 by lia.
        assert (Hd : length (drop (length ys) xs) = length xs - length ys)
          by by rewrite length_drop.
        eapply wp_eq.
        { rewrite <-Hd. eapply (destroy_n_mid b _ (Some <$> ys)).
          - rewrite Hh1. by lookup_tac.
          - by rewrite length_fmap. }
        simpl. by apply Hfin.
      * intros s1 [_ (Hth & Ho1 & zs & Hzs & Hh1)]. split; [done|].
        apply (Hleft s1 (zs ++ drop (length ys) xs)); [done| |].
        -- rewrite length_app, length_drop. lia.
        -- rewrite Hh1. unfold cells.
           rewrite fmap_app, <-app_assoc, length_app, length_drop.
           by replace (length zs + (length xs - length ys)) with (length xs) by lia.
    + apply wp_bind.
      eapply wp_mono.
      { apply (wp_both _ _ _ _ _ _
                 (std_copy_prefix s r ys b xs _ (length xs) Hhr
                    ltac:(lia) Hsep' Hb eq_refl)
                 (std_copy_prefix_throw s r ys b xs _ (length xs) Hhr
                    ltac:(lia) Hsep' Hb eq_refl)). }
      2:{ intros s1 [_ (Hth & Ho1 & zs & Hzs & Hh1)]. split; [done|].
          apply (Hleft s1 zs); [done|done|]. rewrite Hh1. unfold cells.
          by rewrite Hzs. }
      intros [] s1 [(Hh1 & Ho1 & Ht1) _]. simpl.
      assert (Hd : length (drop (length xs) ys) = length ys - length xs)
        by by rewrite length_drop.
      assert (Htk : length (take (length xs) ys) = length xs)
        by (rewrite length_take; lia).
      destruct (buffer_ (data_ r)) as [[br j]|] eqn:Hbufr.
      * destruct (holds_block _ _ _ _ _ Hhr Hbufr) as (-> & Hbr & _ & _).
        assert (Hneb : br ≠ b) by (intros ->; by apply (Hsep' 0)).
        eapply wp_mono.
        { unfold uninitialized_copy_n. rewrite <-Hd.
          apply (uninitialized_copy_from_spec br _ (Some <$> take (length xs) ys)
                   (replicate (capacity_ (data_ r) - length ys) None)
                   b _ (Some <$> take (length xs) ys)
                   (replicate (capacity_ (data_ v) - length ys) None)
                   [] (drop (length xs) ys) 0); simpl; [done| | | | |done].
          - rewrite Hh1. rewrite list_lookup_insert_ne by done.
            rewrite Hbr. unfold cells.
            rewrite <-(take_drop (length xs) ys) at 1.
            by rewrite fmap_app, <-app_assoc.
          - rewrite Hh1. lookup_tac. rewrite <-replicate_add, Hd.
            do 4 f_equal. lia.
          - by rewrite length_fmap, Htk.
          - by rewrite length_fmap, Htk. }
        -- intros [] s2 (Hh2 & Ho2 & Ht2). simpl in *.
           apply Hfin. by rewrite Ho2.
        -- intros s2 (Hth & Hh2 & Ho2 & _). simpl in *. split; [done|].
           apply (Hleft s2 (take (length xs) ys)); [by rewrite Ho2|done|].
           rewrite Hh2, Hh1, list_insert_insert_eq. unfold cells.
           rewrite <-replicate_add, Htk, Hd. do 4 f_equal. lia.
      * destruct (holds_null _ _ _ Hhr Hbufr) as (-> & _).
        assert (xs = []) as -> by (destruct xs; [done|simpl in *; lia]).
        simpl in *. eapply wp_eq; [done|]. simpl. by apply Hfin.
  - destruct (holds_null _ _ _ Hh Hbuf) as (-> & _ & Hc0).
    assert (ys = []) as -> by (destruct ys; [done|simpl in *; lia]).
    rewrite !decide_False by (simpl; lia).
    apply wp_bind. unfold std_copy. apply wp_bind.
    eapply wp_eq; [by apply ptr_diff_add|]. simpl.
    apply wp_ret. eapply wp_eq; [done|]. simpl. by apply Hfin.
Qed.

(** Copy assignment that throws leaves both vectors valid: the source is
    untouched and holds its elements, and the target object is untouched
    and holds a sequence of as many elements as before in its buffer. When
    the source has more elements than the target has capacity, the
    assignment is copy-and-swap and gives the strong guarantee: the target
    holds the elements it held. *)
Theorem copy_assignment_failure (s : state T) this rhs v r xs ys :
  this ≠ rhs → vector_at s this v xs → vector_at s rhs r ys → separate v r →
  wp (Vector.assign this rhs) s
     (λ _ _, True)
     (λ s',
        throwing ∧ vector_at s' rhs r ys
        ∧ (∃ zs, vector_at s' this v zs ∧ length zs = length xs)
        ∧ (capacity_ (data_ v) < length ys → vector_at s' this v xs)).
Proof.
  intros Hne Hat Hr Hsep.
  destruct (decide (capacity_ (data_ v) < length ys)) as [Hbig|Hfit].
  - eapply wp_mono;
      [by apply (copy_assignment_reallocating_strong s this rhs v r xs ys)|done|].
    intros s' (Hth & Hat' & Hr'). split_and!; [done|done|by exists xs|done].
  - eapply wp_mono;
      [apply (copy_assignment_in_place_failure s this rhs v r xs ys);
         [done..|lia]|done|].
    intros s' (Hth & Hr' & Hzs). by split_and!.
Qed.

(** ** Construction and destruction *)

Lemma holds_grown_heap (s s' : state T) h w zs :
  heap s' = heap s ++ h → holds s w zs → holds s' w zs.
Proof.
  intros Hh' Hw. eapply holds_frame; [exact Hw|]. intros b i Hb.
  destruct (holds_block _ _ _ _ _ Hw Hb) as (_ & Hb' & _).
  rewrite Hh'. apply lookup_app_l. by eapply lookup_lt_Some.
Qed.


Lemma copy_ctor_failure (s : state T) other r ys :
  vector_at s other r ys →
  wp (Vector.copy_ctor other) s
     (λ _ _, True)
     (λ s',
        throwing ∧ objs s' = objs s
        ∧ (heap s' = heap s ∨ heap s' = heap s ++ [None])).
Proof.
  intros [Hr Hh]. unfold Vector.copy_ctor, RawMemory.GetAddress.
  pose proof Hh as (Hsz & Hcap & _).
  apply wp_bind. eapply wp_eq; [by apply load_eq|]. simpl. rewrite Hsz.
  destruct ys as [|y ys].
  - apply wp_bind. eapply wp_eq; [done|]. simpl.
    apply wp_bind. eapply wp_eq; [done|]. simpl.
    by unfold Vector.new_object, wp.
  - set (ys' := y :: ys) in *.
    destruct (buffer_ (data_ r)) as [[br i]|] eqn:Hbuf.
    2:{ by destruct (holds_null _ _ _ Hh Hbuf) as (? & _). }
    destruct (holds_block _ _ _ _ _ Hh Hbuf) as (-> & Hb & _ & _).
    assert (Hlt : br < length (heap s)) by by eapply lookup_lt_Some.
    apply wp_bind. eapply wp_eq; [by apply RawMemory_new_eq|]. case_throw.
    { split_and!; [by eapply may_throw_throwing|done|by left]. }
    simpl. apply wp_bind, wp_on_throw.
    eapply wp_mono.
    { apply (uninitialized_copy_from_spec br 0 []
               (replicate (capacity_ (data_ r) - length ys') None)
               (length (heap s)) 0 [] [] [] ys' 0); simpl; [lia| | |done..].
      - rewrite lookup_app_l by done. exact Hb.
      - rewrite list_lookup_middle by done. by rewrite app_nil_r. }
    + intros [] s1 _. by unfold Vector.new_object, wp.
    + intros s1 (Hth & Hh1 & Ho1 & _). simpl in *.
      unfold wp, RawMemory.delete, RawMemory.Deallocate. simpl.
      rewrite Hh1. rewrite list_lookup_insert_eq by (rewrite length_app; simpl; lia).
      simpl. split_and!; [done|done|]. right.
      rewrite list_insert_insert_eq.
      rewrite insert_app_r_alt by done. by rewrite Nat.sub_diag.
Qed.


(** The copy constructor makes a deep copy: the new vector holds the
    elements of the source, in a block of its own whose capacity is
    exactly the size (whatever the capacity of the source), by one
    allocation (none for an empty source) and one copy construction for
    each element, in order; the source and every other vector are
    untouched. When it throws, no vector has been created, the copies made
    before the failure have been destroyed and the block released. *)
Theorem copy_ctor_copies (s : state T) other r ys :
  vector_at s other r ys →
  wp (Vector.copy_ctor other) s
     (λ d s',
        ∃ v', vector_at s' d v' ys
          ∧ d = length (objs s) ∧ d ≠ other
          ∧ separate v' r
          ∧ size_ v' = length ys ∧ capacity_ (data_ v') = length ys
          ∧ trace s' = trace s ++ match ys with
                                  | [] => []
                                  | _ => [Did (OpNew (length ys))]
                                  end ++ (Did ∘ CopyCtor <$> ys)
          ∧ ∀ o w zs, vector_at s o w zs → vector_at s' o w zs)
     (λ s',
        throwing ∧ objs s' = objs s
        ∧ (heap s' = heap s ∨ heap s' = heap s ++ [None])).
Proof.
  intros Hat. pose proof Hat as [Hr Hh].
  assert (Hlt : other < length (objs s)) by by eapply lookup_lt_Some.
  eapply wp_mono.
  { apply (wp_both _ _ _ _ _ _ (copy_ctor_spec s other r ys Hat)
                               (copy_ctor_failure s other r ys Hat)). }
  2:{ by intros s' [_ ?]. }
  intros d s' [(-> & Ho & Hh' & Ht) _]. simpl in *.
  exists (mkVector
            (mkRawMemory match ys with
                         | [] => None
                         | _ => Some (length (heap s), 0)
                         end (length ys)) (length ys)).
  split_and!; [|done|lia| |done|done|done|].
  - split; [rewrite Ho; by apply list_lookup_middle|].
    unfold holds, buffer_is. simpl.
    split_and!; [done|done|by apply length_cells|].
    destruct ys as [|y ys]; [done|]. split; [done|].
    by rewrite Hh', list_lookup_middle.
  - intros b i j Hb Hbr. simpl in Hb.
    destruct ys as [|y ys]; [done|]. injection Hb as <- <-.
    destruct (holds_block _ _ _ _ _ Hh Hbr) as (_ & Hb' & _).
    apply lookup_lt_Some in Hb'. lia.
  - intros o w zs [Hw Hhw]. split.
    + rewrite Ho. by apply lookup_app_l_Some.
    + by eapply holds_grown_heap.
Qed.

(** The destructor destroys every element once, in the order of the
    indices, then releases the buffer, once, and nothing else; it cannot
    throw. Afterwards the object is gone and its block is freed, and every
    other vector that owns another block is untouched. *)
Theorem dtor_destroys (s : state T) this v xs :
  vector_at s this v xs →
  wp (Vector.dtor this) s
     (λ _ s',
        objs s' !! this = Some None
        ∧ trace s' = trace s ++ (Did ∘ Destroy <$> xs) ++ freed (buffer_ (data_ v))
        ∧ (∀ b i, buffer_ (data_ v) = Some (b, i) → heap s' !! b = Some None)
        ∧ ∀ o w zs, o ≠ this → vector_at s o w zs → separate w v →
            vector_at s' o w zs)
     (λ _, False).
Proof.
  intros Hat. pose proof Hat as [Hv Hh].
  eapply wp_mono; [by apply (dtor_spec s this v xs)| |done].
  intros [] s' (Ho & Hh' & Ht). simpl. split_and!; [|done| |].
  - rewrite Ho. by eapply objs_insert_eq.
  - intros b i Hb. rewrite Hh', Hb.
    destruct (holds_block _ _ _ _ _ Hh Hb) as (_ & Hb' & _).
    apply list_lookup_insert_eq. by eapply lookup_lt_Some.
  - intros o w zs Hne [Hw Hhw] Hsep. split.
    + rewrite Ho. by rewrite list_lookup_insert_ne.
    + eapply holds_frame; [exact Hhw|]. intros b i Hb. rewrite Hh'.
      destruct (buffer_ (data_ v)) as [[bv j]|] eqn:Hbuf; [|done].
      rewrite list_lookup_insert_ne; [done|].
      intros ->. by apply (Hsep b i j).
Qed.

(** A copy that is made and then destroyed costs one copy construction
    and one destruction for each element, framed by one allocation and the
    release of the block allocated (none of either for an empty source),
    and leaves the source holding its elements in its buffer. *)
Theorem copy_then_destroy (s : state T) other r ys :
  vector_at s other r ys →
  wp (d <- Vector.copy_ctor other ;; Vector.dtor d) s
     (λ _ s',
        vector_at s' other r ys
        ∧ heap s' = heap s ++ match ys with [] => [] | _ => [None] end
        ∧ trace s' = trace s
            ++ match ys with [] => [] | _ => [Did (OpNew (length ys))] end
            ++ (Did ∘ CopyCtor <$> ys) ++ (Did ∘ Destroy <$> ys)
            ++ match ys with
               | [] => []
               | _ => [Did (OpDelete (length (heap s)))]
               end)
     (λ _, throwing).
Proof.
  intros Hat. pose proof Hat as [Hr Hh].
  assert (Hlt : other < length (objs s)) by by eapply lookup_lt_Some.
  apply wp_bind.
  eapply wp_mono; [by apply (copy_ctor_spec s other r ys)| |by intros ? (? & _)].
  intros d s1 (-> & Ho1 & Hh1 & Ht1). simpl in *.
  eapply wp_mono.
  { eapply (dtor_spec s1 (length (objs s)) _ ys). split.
    - rewrite Ho1. by apply list_lookup_middle.
    - unfold holds, buffer_is. simpl.
      split_and!; [done|done|by apply length_cells|].
      destruct ys as [|y ys]; [done|]. split; [done|].
      by rewrite Hh1, list_lookup_middle. }
  2:{ done. }
  intros [] s2 (Ho2 & Hh2 & Ht2). simpl in *. split_and!.
  - split.
    + rewrite Ho2, Ho1. rewrite list_lookup_insert_ne by lia.
      by apply lookup_app_l_Some.
    + eapply holds_frame; [exact Hh|]. intros b i Hb.
      destruct (holds_block _ _ _ _ _ Hh Hb) as (_ & Hb' & _).
      pose proof (lookup_lt_Some _ _ _ Hb') as Hblt.
      rewrite Hh2, Hh1. destruct ys as [|y ys].
      * by rewrite app_nil_r.
      * rewrite list_lookup_insert_ne by lia. by apply lookup_app_l.
  - rewrite Hh2, Hh1. destruct ys as [|y ys]; [done|].
    rewrite insert_app_r_alt by done. by rewrite Nat.sub_diag.
  - rewrite Ht2, Ht1. destruct ys as [|y ys]; simpl.
    + by rewrite !app_nil_r.
    + by rewrite <-!app_assoc.
Qed.

(** A vector that has been moved from is empty and owns nothing: its
    destruction destroys no element and releases no block, and the vector
    constructed from it keeps the elements in the buffer it took over. *)
Theorem moved_from_dtor (s : state T) x vx xs :
  vector_at s x vx xs →
  wp (d <- Vector.move_ctor x ;; Vector.dtor x ;; ret d) s
     (λ d s',
        vector_at s' d vx xs
        ∧ objs s' !! x = Some None
        ∧ heap s' = heap s ∧ trace s' = trace s)
     (λ _, False).
Proof.
  intros Hat. pose proof Hat as [Hx Hh].
  assert (Hlt : x < length (objs s)) by by eapply lookup_lt_Some.
  apply wp_bind.
  eapply wp_mono; [by apply (move_ctor_spec s x vx xs)| |done].
  intros d s1 ([Hd Hhd] & Hx1 & -> & Hh1 & Ht1). simpl.
  apply wp_bind.
  eapply wp_mono; [by apply (dtor_spec s1 x _ [] Hx1)| |done].
  intros [] s2 (Ho2 & Hh2 & Ht2). simpl in *. apply wp_ret.
  rewrite app_nil_r in Ht2.
  split_and!; [|by rewrite Ho2; eapply objs_insert_eq; apply Hx1| |].
  - split; [rewrite Ho2; by rewrite list_lookup_insert_ne by lia|].
    eapply holds_same_heap; [|exact Hhd]. by rewrite Hh2.
  - by rewrite Hh2.
  - by rewrite Ht2.
Qed.

(** ** Iterators and indexing *)



(** [Erase] checks nothing either. Its position must designate an
    element: at [end()] of a vector that has a buffer, the range handed to
    [std::move] starts after its end, and the behaviour is undefined. *)
Theorem Erase_at_end_undefined (s : state T) this v xs :
  vector_at s this v xs → buffer_ (data_ v) ≠ None →
  Vector.Erase this (ptr_add (buffer_ (data_ v)) (length xs)) s = Undef.
Proof.
  intros [Hv Hh] Hbuf. pose proof Hh as (Hsz & _).
  destruct (buffer_ (data_ v)) as [[b i]|] eqn:Hb; [|done]. simpl.
  unfold Vector.Erase.
  erewrite bind_Ret; last by apply begin_eq.
  erewrite bind_Ret.
  2:{ rewrite Hb. by apply (ptr_diff_add (Some (b, i)) (length xs)). }
  erewrite bind_Ret; last by apply end_eq.
  rewrite Hb, Hsz. simpl. unfold bind at 1, std_move, bind, ptr_diff.
  rewrite decide_False by lia. done.
Qed.

(** ** The private helpers *)

Lemma ptr_add_add (p : ptr) i j : ptr_add (ptr_add p i) j = ptr_add p (i + j).
Proof. destruct p as [[b k]|]; [|done]. simpl. do 2 f_equal. lia. Qed.

Lemma DestroyN_from_eq (buf : ptr) i n (s : state T) :
  Vector.DestroyN_from buf i n s = destroy_n (ptr_add buf i) n s.
Proof.
  revert i s. induction n as [|n IH]; intros i s; [done|]. simpl.
  unfold Vector.Destroy, bind.
  destruct (destroy_at (ptr_add buf i) s) as [[] s1|s1|]; [|done..].
  rewrite IH, ptr_add_add. do 2 f_equal. lia.
Qed.

(** The loop of [DestroyN] does what [std::destroy_n], which the public
    functions call instead, does: on every state and for every address and
    count the two have the same outcome. On [n] live objects that is their
    destruction in the order of the addresses, leaving the slots raw. *)
Theorem DestroyN_is_destroy_n (s : state T) b i pre ys post :
  heap s !! b = Some (Some (pre ++ (Some <$> ys) ++ post)) → i = length pre →
  (∀ buf n (s0 : state T), Vector.DestroyN buf n s0 = destroy_n buf n s0)
  ∧ Vector.DestroyN (Some (b, i)) (length ys) s
    = Ret () (mkState
                (<[b := Some (pre ++ replicate (length ys) None ++ post)]> (heap s))
                (objs s) (trace s ++ (Did ∘ Destroy <$> ys))).
Proof.
  intros Hb Hi.
  assert (Heq : ∀ buf n (s0 : state T),
            Vector.DestroyN buf n s0 = destroy_n buf n s0).
  { intros buf n s0. unfold Vector.DestroyN. rewrite DestroyN_from_eq.
    f_equal. destruct buf as [[c k]|]; [|done]. simpl. do 2 f_equal. lia. }
  split; [exact Heq|]. rewrite Heq. by apply destroy_n_mid.
Qed.

(** [CopyConstruct] into a raw slot followed by [Destroy] on it leaves the
    slot raw again, and costs one copy construction and one destruction;
    if the copy throws, the slot was not touched and nothing else was
    done. *)
Theorem CopyConstruct_Destroy_round_trip (s : state T) b i pre post x :
  heap s !! b = Some (Some (pre ++ None :: post)) → i = length pre →
  wp (Vector.CopyConstruct (Some (b, i)) x ;; Vector.Destroy (Some (b, i))) s
     (λ _ s',
        heap s' = heap s ∧ objs s' = objs s
        ∧ trace s' = trace s ++ [Did (CopyCtor x); Did (Destroy x)])
     (λ s',
        throwing ∧ heap s' = heap s ∧ objs s' = objs s
        ∧ trace s' = trace s ++ [Threw (CopyCtor x)]).
Proof.
  intros Hb Hi. apply wp_bind. eapply wp_eq.
  { unfold Vector.CopyConstruct. by apply construct_at_mid. }
  destruct (may_throw (trace s) (CopyCtor x)) eqn:Hthrow.
  { split_and!; [by eapply may_throw_throwing|done..]. }
  eapply wp_eq.
  { unfold Vector.Destroy. apply (destroy_at_mid b i pre x post); [|done].
    simpl. by eapply heap_insert_eq. }
  simpl. split_and!; [|done|by rewrite <-app_assoc].
  rewrite list_insert_insert_eq. by apply list_insert_id.
Qed.

(** ** The moves of RawMemory *)

(** The move constructor of [RawMemory] hands the block over: the new
    object has the buffer and the capacity of the source, and the source
    is left with a null buffer and capacity 0. The block then has one
    owner: destroying the two objects, in either order, has defined
    behaviour and releases the block once. *)
Theorem RawMemory_move_ctor_transfers (s : state T) r blk :
  buffer_is s r blk →
  let n := (RawMemory.move_ctor r).1 in
  let o := (RawMemory.move_ctor r).2 in
  buffer_is s n blk
  ∧ buffer_ o = None ∧ capacity_ o = 0
  ∧ ∀ m : M unit,
      m = (RawMemory.delete o ;; RawMemory.delete n)
      ∨ m = (RawMemory.delete n ;; RawMemory.delete o) →
      wp m s
         (λ _ s',
            trace s' = trace s ++ freed (buffer_ r)
            ∧ ∀ b i, buffer_ r = Some (b, i) → heap s' !! b = Some None)
         (λ _, False).
Proof.
  intros Hr. simpl. split_and!; [done|done|done|].
  assert (Hn : buffer_is s (mkRawMemory (buffer_ r) (capacity_ r)) blk) by done.
  assert (Hfreed : ∀ b i, buffer_ r = Some (b, i) →
            <[b := None]> (heap s) !! b = Some None).
  { intros b i Hb. destruct Hr as (_ & Hr). rewrite Hb in Hr.
    destruct Hr as [_ Hr]. apply list_lookup_insert_eq. by eapply lookup_lt_Some. }
  intros m [-> | ->]; apply wp_bind.
  - eapply wp_eq; [done|]. simpl.
    eapply wp_eq; [by apply (RawMemory_delete_eq _ s blk)|]. simpl.
    split; [done|]. intros b i Hb. rewrite Hb. by eapply Hfreed.
  - eapply wp_eq; [by apply (RawMemory_delete_eq _ s blk)|]. simpl.
    eapply wp_eq; [done|]. simpl.
    split; [done|]. intros b i Hb. rewrite Hb. by eapply Hfreed.
Qed.

(** Move assignment of [RawMemory] between two objects releases the
    block of the target, once, and hands over the block of the source:
    the target has the buffer and the capacity of the source, whose block
    is as it was, the source is left null with capacity 0, and no other
    object changes. Assigning an object to itself releases nothing and
    leaves everything as it was. *)
Theorem RawMemory_move_assign_transfers (s : state T) mem this rhs r o blk_r blk_o :
  mem !! this = Some r → mem !! rhs = Some o →
  buffer_is s r blk_r → buffer_is s o blk_o →
  (∀ b i j, buffer_ r = Some (b, i) → buffer_ o ≠ Some (b, j)) →
  (this ≠ rhs →
   wp (RawMemory.move_assign mem this rhs) s
      (λ mem' s',
         mem' !! this = Some (mkRawMemory (buffer_ o) (capacity_ o))
         ∧ mem' !! rhs = Some (mkRawMemory None 0)
         ∧ (∀ k, k ≠ this → k ≠ rhs → mem' !! k = mem !! k)
         ∧ buffer_is s' o blk_o
         ∧ (∀ b i, buffer_ r = Some (b, i) → heap s' !! b = Some None)
         ∧ objs s' = objs s
         ∧ trace s' = trace s ++ freed (buffer_ r))
      (λ _, False))
  ∧ RawMemory.move_assign mem this this s = Ret mem s.
Proof.
  intros Hthis Hrhs Hr Ho Hsep. split.
  - intros Hne. unfold RawMemory.move_assign. rewrite Hthis, Hrhs.
    rewrite decide_True by done. apply wp_bind.
    eapply wp_eq; [by apply (RawMemory_delete_eq r s blk_r)|]. simpl.
    apply wp_ret. simpl.
    assert (Hlt : this < length mem) by by eapply lookup_lt_Some.
    assert (Hltr : rhs < length mem) by by eapply lookup_lt_Some.
    split_and!; [..|done|done].
    + rewrite list_lookup_insert_ne by done.
      by rewrite list_lookup_insert_eq.
    + by rewrite list_lookup_insert_eq by (by rewrite length_insert).
    + intros k Hk1 Hk2. by rewrite !list_lookup_insert_ne.
    + destruct Ho as (Hlen & Ho). split; [done|].
      destruct (buffer_ o) as [[bo j]|] eqn:Hbo; [|done]. simpl.
      destruct Ho as [-> Ho]. split; [done|].
      destruct (buffer_ r) as [[br i]|] eqn:Hbr; [|done].
      rewrite list_lookup_insert_ne; [done|].
      intros ->. by apply (Hsep bo i 0).
    + intros b i Hb. rewrite Hb. destruct Hr as (_ & Hr). rewrite Hb in Hr.
      destruct Hr as [_ Hr]. apply list_lookup_insert_eq. by eapply lookup_lt_Some.
  - unfold RawMemory.move_assign. rewrite Hthis.
    by rewrite decide_False by (intros Hne; by apply Hne).
Qed.

(** ** The invariant *)


(** ** The cost of appending *)














End Further.

(** ** Instances of the further properties on the probe states *)

Lemma PopBack_pops_witness :
  vector_at two_vectors 0 (mkVector (mkRawMemory (Some (0, 0)) 2) 2) [1; 2]
  ∧ wp (Vector.PopBack 0) two_vectors
       (λ _ s',
          ([1; 2] = [] → s' = two_vectors)
          ∧ (∀ ys x, [1; 2] = ys ++ [x] →
               vector_at s' 0 (mkVector (mkRawMemory (Some (0, 0)) 2) (length ys)) ys
               ∧ trace s' = trace two_vectors ++ [Did (Destroy x)]))
       (λ _, False).
Proof.
  split; [concrete|].
  apply (PopBack_pops two_vectors 0 (mkVector (mkRawMemory (Some (0, 0)) 2) 2) [1; 2]).
  concrete.
Defined.



Lemma Swap_exchanges_witness :
  vector_at two_vectors 0 (mkVector (mkRawMemory (Some (0, 0)) 2) 2) [1; 2]
  ∧ vector_at two_vectors 1 (mkVector (mkRawMemory (Some (1, 0)) 1) 1) [7]
  ∧ (0 ≠ 1 →
     wp (Vector.Swap 0 1) two_vectors
        (λ _ s',
           vector_at s' 0 (mkVector (mkRawMemory (Some (1, 0)) 1) 1) [7]
           ∧ vector_at s' 1 (mkVector (mkRawMemory (Some (0, 0)) 2) 2) [1; 2]
           ∧ heap s' = heap two_vectors ∧ trace s' = trace two_vectors)
        (λ _, False)
     ∧ (Vector.Swap 0 1 ;; Vector.Swap 0 1) two_vectors = Ret () two_vectors)
  ∧ Vector.Swap 0 0 two_vectors = Ret () two_vectors.
Proof.
  split; [concrete|]. split; [concrete|].
  apply (Swap_exchanges two_vectors 0 1
      (mkVector (mkRawMemory (Some (0, 0)) 2) 2)
          (mkVector (mkRawMemory (Some (1, 0)) 1) 1) [1; 2] [7]); concrete.
Defined.





Lemma Resize_keeps_capacity_witness :
  vector_at two_vectors 0 (mkVector (mkRawMemory (Some (0, 0)) 2) 2) [1; 2]
  ∧ 0 ≤ 2
  ∧ wp (Vector.Resize (Element0 := sturdy) 0 0) two_vectors
       (λ _ s',
          ∃ ys, vector_at s' 0 (mkVector (mkRawMemory (Some (0, 0)) 2) 0) ys
            ∧ (0 = 0 → ys = [] ∧ trace s' = [Did (Destroy 1); Did (Destroy 2)]))
       (λ _, @throwing nat sturdy).
Proof.
  split; [concrete|]. split; [lia|].
  apply (@Resize_keeps_capacity nat sturdy two_vectors 0
      (mkVector (mkRawMemory (Some (0, 0)) 2) 2) [1; 2] 0);
    [concrete|simpl; lia].
Defined.

(** The operations below do throw: the copy constructor of the element
    type throws on the value [2], or, for [Erase], its move assignment
    throws on the value [1]. *)




Lemma copy_assignment_failure_witness :
  1 ≠ 0
  ∧ vector_at two_vectors 1 (mkVector (mkRawMemory (Some (1, 0)) 1) 1) [7]
  ∧ vector_at two_vectors 0 (mkVector (mkRawMemory (Some (0, 0)) 2) 2) [1; 2]
  ∧ separate (mkVector (mkRawMemory (Some (1, 0)) 1) 1)
      (mkVector (mkRawMemory (Some (0, 0)) 2) 2)
  ∧ (∃ s', @Vector.assign nat fragile 1 0 two_vectors = Throw s')
  ∧ wp (@Vector.assign nat fragile 1 0) two_vectors
       (λ _ _, True)
       (λ s',
          @throwing nat fragile
          ∧ vector_at s' 0 (mkVector (mkRawMemory (Some (0, 0)) 2) 2) [1; 2]
          ∧ (∃ zs, vector_at s' 1 (mkVector (mkRawMemory (Some (1, 0)) 1) 1) zs
              ∧ length zs = 1)
          ∧ (1 < 2 → vector_at s' 1 (mkVector (mkRawMemory (Some (1, 0)) 1) 1) [7])).
Proof.
  assert (Hsep : separate (mkVector (mkRawMemory (Some (1, 0)) 1) 1)
      (mkVector (mkRawMemory (Some (0, 0)) 2) 2)).
  { intros b i j Ha Hb. simpl in *. congruence. }
  split; [lia|]. split; [concrete|]. split; [concrete|]. split; [exact Hsep|].
  split; [eexists; vm_compute; reflexivity|].
  apply (@copy_assignment_failure nat fragile two_vectors 1 0
           (mkVector (mkRawMemory (Some (1, 0)) 1) 1)
               (mkVector (mkRawMemory (Some (0, 0)) 2) 2) [7] [1; 2]);
                   [lia|concrete|concrete|exact Hsep].
Defined.


Lemma copy_ctor_copies_witness :
  vector_at two_vectors 0 (mkVector (mkRawMemory (Some (0, 0)) 2) 2) [1; 2]
  ∧ wp (@Vector.copy_ctor nat sturdy 0) two_vectors
       (λ d s',
          ∃ v', vector_at s' d v' [1; 2]
            ∧ d = 2 ∧ d ≠ 0
            ∧ separate v' (mkVector (mkRawMemory (Some (0, 0)) 2) 2)
            ∧ size_ v' = 2 ∧ capacity_ (data_ v') = 2
            ∧ trace s' = [Did (OpNew 2); Did (CopyCtor 1); Did (CopyCtor 2)]
            ∧ ∀ o w zs, vector_at two_vectors o w zs → vector_at s' o w zs)
       (λ s',
          @throwing nat sturdy ∧ objs s' = objs two_vectors
          ∧ (heap s' = heap two_vectors ∨ heap s' = heap two_vectors ++ [None])).
Proof.
  split; [concrete|].
  apply (@copy_ctor_copies nat sturdy two_vectors 0
      (mkVector (mkRawMemory (Some (0, 0)) 2) 2) [1; 2]).
  concrete.
Defined.

Lemma dtor_destroys_witness :
  vector_at two_vectors 0 (mkVector (mkRawMemory (Some (0, 0)) 2) 2) [1; 2]
  ∧ wp (Vector.dtor 0) two_vectors
       (λ _ s',
          objs s' !! 0 = Some None
          ∧ trace s' = [Did (Destroy 1); Did (Destroy 2); Did (OpDelete 0)]
          ∧ (∀ b i, Some (0, 0) = Some (b, i) → heap s' !! b = Some None)
          ∧ ∀ o w zs, o ≠ 0 → vector_at two_vectors o w zs →
              separate w (mkVector (mkRawMemory (Some (0, 0)) 2) 2) → vector_at s' o w zs)
       (λ _, False).
Proof.
  split; [concrete|].
  apply (dtor_destroys two_vectors 0 (mkVector (mkRawMemory (Some (0, 0)) 2) 2) [1; 2]).
  concrete.
Defined.

Lemma copy_then_destroy_witness :
  vector_at two_vectors 0 (mkVector (mkRawMemory (Some (0, 0)) 2) 2) [1; 2]
  ∧ wp (d <- @Vector.copy_ctor nat sturdy 0 ;; Vector.dtor d) two_vectors
       (λ _ s',
          vector_at s' 0 (mkVector (mkRawMemory (Some (0, 0)) 2) 2) [1; 2]
          ∧ heap s' = heap two_vectors ++ [None]
          ∧ trace s' = [Did (OpNew 2); Did (CopyCtor 1); Did (CopyCtor 2);
                        Did (Destroy 1); Did (Destroy 2); Did (OpDelete 2)])
       (λ _, @throwing nat sturdy).
Proof.
  split; [concrete|].
  apply (@copy_then_destroy nat sturdy two_vectors 0
      (mkVector (mkRawMemory (Some (0, 0)) 2) 2) [1; 2]).
  concrete.
Defined.

Lemma moved_from_dtor_witness :
  vector_at two_vectors 0 (mkVector (mkRawMemory (Some (0, 0)) 2) 2) [1; 2]
  ∧ wp (d <- Vector.move_ctor 0 ;; Vector.dtor 0 ;; ret d) two_vectors
       (λ d s',
          vector_at s' d (mkVector (mkRawMemory (Some (0, 0)) 2) 2) [1; 2]
          ∧ objs s' !! 0 = Some None
          ∧ heap s' = heap two_vectors ∧ trace s' = trace two_vectors)
       (λ _, False).
Proof.
  split; [concrete|].
  apply (moved_from_dtor two_vectors 0 (mkVector (mkRawMemory (Some (0, 0)) 2) 2)
      [1; 2]).
  concrete.
Defined.



Lemma Erase_at_end_undefined_witness :
  vector_at two_vectors 0 (mkVector (mkRawMemory (Some (0, 0)) 2) 2) [1; 2]
  ∧ Some (0, 0) ≠ None
  ∧ @Vector.Erase nat sturdy 0 (Some (0, 2)) two_vectors = Undef.
Proof.
  split; [concrete|]. split; [done|].
  apply (@Erase_at_end_undefined nat sturdy two_vectors 0
      (mkVector (mkRawMemory (Some (0, 0)) 2) 2) [1; 2]); [concrete|done].
Defined.

Lemma DestroyN_is_destroy_n_witness :
  heap two_vectors !! 0 = Some (Some ([] ++ (Some <$> [1; 2]) ++ []))
  ∧ 0 = length (@nil (option nat))
  ∧ (∀ buf n (s0 : state nat), Vector.DestroyN buf n s0 = destroy_n buf n s0)
  ∧ Vector.DestroyN (Some (0, 0)) 2 two_vectors
    = Ret () {| heap := [Some [None; None]; Some [Some 7]];
                objs := objs two_vectors;
                trace := [Did (Destroy 1); Did (Destroy 2)] |}.
Proof.
  split; [reflexivity|]. split; [reflexivity|].
  apply (DestroyN_is_destroy_n two_vectors 0 0 [] [1; 2] []); reflexivity.
Defined.

Lemma CopyConstruct_Destroy_round_trip_witness :
  heap roomy_vector !! 0 = Some (Some ([Some 1; Some 2] ++ None :: []))
  ∧ 2 = length [Some 1; Some 2]
  ∧ wp (@Vector.CopyConstruct nat sturdy (Some (0, 2)) 5 ;;
        Vector.Destroy (Some (0, 2))) roomy_vector
       (λ _ s',
          heap s' = heap roomy_vector ∧ objs s' = objs roomy_vector
          ∧ trace s' = [Did (CopyCtor 5); Did (Destroy 5)])
       (λ s',
          @throwing nat sturdy ∧ heap s' = heap roomy_vector
          ∧ objs s' = objs roomy_vector
          ∧ trace s' = [Threw (CopyCtor 5)]).
Proof.
  split; [reflexivity|]. split; [reflexivity|].
  apply (@CopyConstruct_Destroy_round_trip nat sturdy roomy_vector 0 2
           [Some 1; Some 2] [] 5); reflexivity.
Defined.

Lemma RawMemory_move_ctor_transfers_witness :
  buffer_is two_vectors (mkRawMemory (Some (0, 0)) 2) [Some 1; Some 2]
  ∧ buffer_is two_vectors (mkRawMemory (Some (0, 0)) 2) [Some 1; Some 2]
  ∧ @None (nat * nat) = None ∧ 0 = 0
  ∧ ∀ m : M nat unit,
      m = (RawMemory.delete (mkRawMemory None 0) ;;
           RawMemory.delete (mkRawMemory (Some (0, 0)) 2))
      ∨ m = (RawMemory.delete (mkRawMemory (Some (0, 0)) 2) ;;
             RawMemory.delete (mkRawMemory None 0)) →
      wp m two_vectors
         (λ _ s',
            trace s' = [Did (OpDelete 0)]
            ∧ ∀ b i, Some (0, 0) = Some (b, i) → heap s' !! b = Some None)
         (λ _, False).
Proof.
  split; [concrete|].
  apply (RawMemory_move_ctor_transfers two_vectors (mkRawMemory (Some (0, 0)) 2)
           [Some 1; Some 2]).
  concrete.
Defined.

Lemma RawMemory_move_assign_transfers_witness :
  let mem := [mkRawMemory (Some (0, 0)) 2; mkRawMemory (Some (1, 0)) 1] in
  mem !! 0 = Some (mkRawMemory (Some (0, 0)) 2)
  ∧ mem !! 1 = Some (mkRawMemory (Some (1, 0)) 1)
  ∧ buffer_is two_vectors (mkRawMemory (Some (0, 0)) 2) [Some 1; Some 2]
  ∧ buffer_is two_vectors (mkRawMemory (Some (1, 0)) 1) [Some 7]
  ∧ (0 ≠ 1 →
     wp (RawMemory.move_assign mem 0 1) two_vectors
        (λ mem' s',
           mem' !! 0 = Some (mkRawMemory (Some (1, 0)) 1)
           ∧ mem' !! 1 = Some (mkRawMemory None 0)
           ∧ (∀ k, k ≠ 0 → k ≠ 1 → mem' !! k = mem !! k)
           ∧ buffer_is s' (mkRawMemory (Some (1, 0)) 1) [Some 7]
           ∧ (∀ b i, Some (0, 0) = Some (b, i) → heap s' !! b = Some None)
           ∧ objs s' = objs two_vectors
           ∧ trace s' = [Did (OpDelete 0)])
        (λ _, False))
  ∧ RawMemory.move_assign mem 0 0 two_vectors = Ret mem two_vectors.
Proof.
  intros mem.
  split; [reflexivity|]. split; [reflexivity|].
  split; [concrete|]. split; [concrete|].
  apply (RawMemory_move_assign_transfers two_vectors mem 0 1
           (mkRawMemory (Some (0, 0)) 2) (mkRawMemory (Some (1, 0)) 1)
           [Some 1; Some 2] [Some 7]); [reflexivity|reflexivity|concrete|concrete|].
  intros b i j Hb Ho. simpl in *. congruence.
Defined.




